(** * Cipher credential subsystem: API key store, request gates, admin routes

    Shallow embedding of
      - src/app/api/services/api-key-store.ts   (ApiKeyStore)
      - the authorization middleware            (createApiKeyAuth, createAdminAuth)
      - src/app/api/routes/api-keys.ts          (POST /, GET /, GET /:keyId)

    The SQLite table is a list of rows in rowid (insertion) order; every
    prepared statement is a function on that list.  Clock readings
    (Date.now()), entropy (randomBytes, randomUUID) and engine faults are
    explicit inputs.  Integers stand for JavaScript numbers; fractional
    numbers and NaN-valued numbers in request bodies are outside the model. *)

From Stdlib Require Import ZArith List String Ascii Bool Lia Permutation Sorted.
Import ListNotations.

Local Open Scope string_scope.
Local Open Scope list_scope.
Local Open Scope Z_scope.
Set Warnings "-register-all".

(* ------------------------------------------------------------------ *)
(** ** JavaScript values and the operators the code applies to them *)

Module JS.

(** A value of a parsed JSON request body; [Undefined] is a missing field. *)
Inductive value : Type :=
| Undefined
| Null
| Bool (b : bool)
| Num (z : Z)
| Str (s : string)
| Arr (items : list value)
| Obj (fields : list (string * value)).

(** ToBoolean: what [!v], [v && ..] and [v || ..] test. *)
Definition truthy (v : value) : bool :=
  match v with
  | Undefined | Null => false
  | Bool b => b
  | Num z => negb (z =? 0)
  | Str s => negb (s =? "")%string
  | Arr _ | Obj _ => true
  end.

(** [Array.isArray(v)] *)
Definition isArray (v : value) : bool :=
  match v with Arr _ => true | _ => false end.

(** [v || d] *)
Definition or_else (v d : value) : value := if truthy v then v else d.

(** [arr.includes(s)] for a string [s]: strict equality against each item. *)
Definition includes (items : list value) (s : string) : bool :=
  existsb (fun v => match v with Str t => (t =? s)%string | _ => false end) items.

(** [s.startsWith(p)] *)
Definition startsWith (s p : string) : bool := String.prefix p s.

(** [s.split(' ')]: one piece per maximal space-free segment, empty pieces
    kept, so the result is never empty. *)
Fixpoint split_space (s : string) : list string :=
  match s with
  | EmptyString => [""%string]
  | String c rest =>
      if Ascii.eqb c " " then ""%string :: split_space rest
      else match split_space rest with
           | [] => [String c ""]
           | p :: ps => String c p :: ps
           end
  end.

(** White space stripped by [trim], among code units below 256. *)
Definition is_ws (c : ascii) : bool :=
  let n := nat_of_ascii c in
  ((9 <=? n) && (n <=? 13) || (n =? 32) || (n =? 160))%nat.

Fixpoint ltrim (s : string) : string :=
  match s with
  | String ch tail => if is_ws ch then ltrim tail else String ch tail
  | EmptyString => EmptyString
  end.

Fixpoint rtrim (s : string) : string :=
  match s with
  | String ch tail =>
      let kept := rtrim tail in
      if is_ws ch && (kept =? "")%string then EmptyString else String ch kept
  | EmptyString => EmptyString
  end.

(** [s.trim()] *)
Definition trim (s : string) : string := rtrim (ltrim s).

(** [s.length], counted in code units. *)
Definition length (s : string) : Z := Z.of_nat (String.length s).

End JS.

(* ------------------------------------------------------------------ *)
(** ** Host functions the repository calls but does not define *)

(** [hashKey] is [createHash('sha256').update(k).digest('hex')];
    [objectToNumber] is ECMAScript ToNumber on strings, arrays and objects
    ([None] is NaN).  Both are left abstract. *)
Class Host : Type := {
  hashKey : string -> string;
  objectToNumber : JS.value -> option Z
}.

(** [Number(v)]; [None] is NaN. *)
Definition Number `{Host} (v : JS.value) : option Z :=
  match v with
  | JS.Undefined => None
  | JS.Null => Some 0
  | JS.Bool b => Some (if b then 1 else 0)
  | JS.Num z => Some z
  | JS.Str _ | JS.Arr _ | JS.Obj _ => objectToNumber v
  end.

(** What SQLite makes of a text stored in a column of INTEGER affinity:
    [integerAffinity s] is the integer the column then holds, and [None]
    when the column keeps a REAL or the text itself.  Left abstract. *)
Class Engine : Type := {
  integerAffinity : string -> option Z
}.

(* ------------------------------------------------------------------ *)
(** ** Data model: api_keys rows *)

(** One row of [api_keys], already seen through [rowToRecord]: the
    [permissions] text column holds [JSON.stringify] of the array and is
    read back with [JSON.parse]; [revoked] is the 0/1 column as a boolean. *)
Record ApiKeyRecord : Type := mkRecord {
  id : string;
  name : string;
  prefix : string;
  keyHash : string;
  permissions : list JS.value;
  createdAt : Z;
  lastUsedAt : option Z;
  expiresAt : option Z;
  revoked : bool
}.

(** The table, rows in rowid order. *)
Definition Table : Type := list ApiKeyRecord.

Definition set_revoked (r : ApiKeyRecord) : ApiKeyRecord :=
  mkRecord (id r) (name r) (prefix r) (keyHash r) (permissions r)
           (createdAt r) (lastUsedAt r) (expiresAt r) true.

Definition set_lastUsedAt (t : Z) (r : ApiKeyRecord) : ApiKeyRecord :=
  mkRecord (id r) (name r) (prefix r) (keyHash r) (permissions r)
           (createdAt r) (Some t) (expiresAt r) (revoked r).

Definition set_name (n : string) (r : ApiKeyRecord) : ApiKeyRecord :=
  mkRecord (id r) n (prefix r) (keyHash r) (permissions r)
           (createdAt r) (lastUsedAt r) (expiresAt r) (revoked r).

(* ------------------------------------------------------------------ *)
(** ** The prepared statements *)

Module Sql.

Definition has_id (i : string) (r : ApiKeyRecord) : bool := (id r =? i)%string.
Definition has_hash (h : string) (r : ApiKeyRecord) : bool := (keyHash r =? h)%string.
Definition active (r : ApiKeyRecord) : bool := negb (revoked r).

(** [UPDATE .. WHERE id = ?]: every row the WHERE clause selects is
    rewritten, and [changes] counts the selected rows, whether or not the
    assignment alters the stored value. *)
Definition update_where_id (f : ApiKeyRecord -> ApiKeyRecord) (i : string)
           (t : Table) : Table * Z :=
  (map (fun r => if has_id i r then f r else r) t,
   Z.of_nat (List.length (filter (has_id i) t))).

(** [INSERT INTO api_keys ..]: refused ([None], the driver throws) when the
    PRIMARY KEY on [id] or the UNIQUE constraint on [key_hash] is violated;
    otherwise the row gets the next rowid. *)
Definition insert (r : ApiKeyRecord) (t : Table) : option Table :=
  if existsb (has_id (id r)) t || existsb (has_hash (keyHash r)) t
  then None else Some (t ++ [r]).

(** What becomes of a value passed to [insert.run] for [expires_at]:
    the driver throws, or the column holds NULL or an INTEGER, or it holds a
    REAL or a text, which the rows of this model cannot carry. *)
Inductive Bound : Type :=
| Refused
| Stored (e : option Z)
| NotInteger.

(** One bind parameter: the driver takes numbers, strings and null and
    throws a TypeError on anything else; a text goes through the column's
    INTEGER affinity. *)
Definition bind_scalar `{Engine} (v : JS.value) : Bound :=
  match v with
  | JS.Null => Stored None
  | JS.Num z => Stored (Some z)
  | JS.Str s =>
      match integerAffinity s with
      | Some z => Stored (Some z)
      | None => NotInteger
      end
  | JS.Undefined | JS.Bool _ | JS.Arr _ | JS.Obj _ => Refused
  end.

(** The eighth argument of [insert.run].  The driver spreads an array
    argument into positional parameters, so a one-element array fills the one
    placeholder that is left and any other array gives a RangeError; an
    object binds no anonymous parameter, which leaves too few values. *)
Definition bind_expires_at `{Engine} (v : JS.value) : Bound :=
  match v with
  | JS.Arr [x] => bind_scalar x
  | JS.Arr _ => Refused
  | _ => bind_scalar v
  end.

(** [SELECT * .. WHERE key_hash = ? AND revoked = 0], [.get()] *)
Definition findByHash (h : string) (t : Table) : option ApiKeyRecord :=
  find (fun r => has_hash h r && active r) t.

(** [SELECT * .. WHERE id = ?], [.get()] *)
Definition findById (i : string) (t : Table) : option ApiKeyRecord :=
  find (has_id i) t.

(** [ORDER BY created_at DESC]: rows with equal [created_at] keep their
    rowid order. *)
Fixpoint place (r : ApiKeyRecord) (sorted : list ApiKeyRecord) : list ApiKeyRecord :=
  match sorted with
  | [] => [r]
  | x :: rest =>
      if createdAt x <=? createdAt r then r :: sorted else x :: place r rest
  end.

Definition order_by_created_desc (t : list ApiKeyRecord) : list ApiKeyRecord :=
  fold_right place [] t.

Definition listAll (t : Table) : list ApiKeyRecord := order_by_created_desc t.

Definition listActive (t : Table) : list ApiKeyRecord :=
  order_by_created_desc (filter active t).

Definition revoke (i : string) (t : Table) : Table * Z :=
  update_where_id set_revoked i t.

Definition updateLastUsed (now : Z) (i : string) (t : Table) : Table * Z :=
  update_where_id (set_lastUsedAt now) i t.

Definition updateName (n i : string) (t : Table) : Table * Z :=
  update_where_id (set_name n) i t.

(** [DELETE FROM api_keys WHERE id = ?] *)
Definition deleteKey (i : string) (t : Table) : Table * Z :=
  (filter (fun r => negb (has_id i r)) t,
   Z.of_nat (List.length (filter (has_id i) t))).

(** [SELECT COUNT( * ) .. WHERE revoked = 0] *)
Definition count (t : Table) : Z := Z.of_nat (List.length (filter active t)).

End Sql.

(* ------------------------------------------------------------------ *)
(** ** ApiKeyStore *)

Module ApiKeyStore.

(** [CreateApiKeyInput]; an omitted optional field is [None], and so is
    [expiresAt: null]. *)
Record CreateApiKeyInput : Type := mkInput {
  in_name : string;
  in_permissions : option (list JS.value);
  in_expiresAt : option Z
}.

Record CreateApiKeyResult : Type := mkResult {
  key : string;
  record : ApiKeyRecord
}.

(** Entropy and clock consumed by one [create]: the hex text of
    [randomBytes(32)], the [randomUUID()] and [Date.now()]. *)
Record Fresh : Type := mkFresh {
  random_hex : string;
  uuid : string;
  created_now : Z
}.

(** Clock readings and engine behaviour seen by one [validate]: the two
    [Date.now()] calls and whether [updateLastUsed.run] throws. *)
Record Tick : Type := mkTick {
  now_check : Z;
  now_touch : Z;
  touch_throws : bool
}.

Definition generateKey (f : Fresh) : string := ("sk-" ++ random_hex f)%string.

(** [input.permissions || ['*']]: an array is truthy even when empty. *)
Definition permissions_or_default (p : option (list JS.value)) : list JS.value :=
  match p with
  | Some l => l
  | None => [JS.Str "*"]
  end.

(** [input.expiresAt || null]: [0] is falsy. *)
Definition expiresAt_or_null (e : option Z) : option Z :=
  match e with
  | Some z => if z =? 0 then None else Some z
  | None => None
  end.

(** [create]: [None] when the insert throws. *)
Definition create `{Host} (f : Fresh) (input : CreateApiKeyInput) (t : Table)
  : option (CreateApiKeyResult * Table) :=
  let key := generateKey f in
  let keyHash := hashKey key in
  let prefix := (substring 0 10 key ++ "...")%string in
  let record :=
    mkRecord (uuid f) (in_name input) prefix keyHash
             (permissions_or_default (in_permissions input))
             (created_now f) None (expiresAt_or_null (in_expiresAt input)) false in
  match Sql.insert record t with
  | Some t' => Some (mkResult key record, t')
  | None => None
  end.

(** [create] as it runs when the caller does not keep to
    [CreateApiKeyInput]: the POST handler passes the [expiresAt] of the
    request body as it came. *)
Record UntypedInput : Type := mkUntyped {
  un_name : string;
  un_permissions : option (list JS.value);
  un_expiresAt : JS.value
}.

(** How such a call ends: it returns the key and the record (the inserted
    row, except that the record's [expiresAt] is the value that was bound,
    not the stored column); or the insert throws; or the row would hold an
    expiry that is no integer, which this model does not follow. *)
Inductive CreateRun : Type :=
| Returned (key : string) (row : ApiKeyRecord) (expiresAt_returned : JS.value) (t' : Table)
| Threw
| OutsideModel.

Definition create_untyped `{Host} `{Engine} (f : Fresh) (input : UntypedInput) (t : Table)
  : CreateRun :=
  let key := generateKey f in
  let keyHash := hashKey key in
  let prefix := (substring 0 10 key ++ "...")%string in
  let bound := JS.or_else (un_expiresAt input) JS.Null in
  match Sql.bind_expires_at bound with
  | Sql.Refused => Threw
  | Sql.NotInteger => OutsideModel
  | Sql.Stored e =>
      let row :=
        mkRecord (uuid f) (un_name input) prefix keyHash
                 (permissions_or_default (un_permissions input))
                 (created_now f) None e false in
      match Sql.insert row t with
      | Some t' => Returned key row bound t'
      | None => Threw
      end
  end.

(** [record.expiresAt && Date.now() > record.expiresAt] *)
Definition expired (now : Z) (r : ApiKeyRecord) : bool :=
  match expiresAt r with
  | Some e => negb (e =? 0) && (e <? now)
  | None => false
  end.

Definition validate `{Host} (k : Tick) (key : string) (t : Table)
  : option ApiKeyRecord * Table :=
  match Sql.findByHash (hashKey key) t with
  | None => (None, t)
  | Some record =>
      if expired (now_check k) record then (None, t)
      else if touch_throws k then (Some record, t)
      else (Some record, fst (Sql.updateLastUsed (now_touch k) (id record) t))
  end.

Definition getById (i : string) (t : Table) : option ApiKeyRecord :=
  Sql.findById i t.

Definition list (includeRevoked : bool) (t : Table) : list ApiKeyRecord :=
  if includeRevoked then Sql.listAll t else Sql.listActive t.

Definition revoke (i : string) (t : Table) : bool * Table :=
  let (t', changes) := Sql.revoke i t in (0 <? changes, t').

Definition delete (i : string) (t : Table) : bool * Table :=
  let (t', changes) := Sql.deleteKey i t in (0 <? changes, t').

Definition updateName (i n : string) (t : Table) : bool * Table :=
  let (t', changes) := Sql.updateName n i t in (0 <? changes, t').

Definition getActiveCount (t : Table) : Z := Sql.count t.

End ApiKeyStore.

(* ------------------------------------------------------------------ *)
(** ** Authorization middleware *)

Inductive ErrorCode : Type :=
| UNAUTHORIZED
| VALIDATION_ERROR
| NOT_FOUND
| INTERNAL_ERROR.

Module Middleware.

(** How a middleware ends: [next()] with the value left in [req.apiKey],
    or an [errorResponse] with its HTTP status. *)
Inductive Outcome : Type :=
| Next (apiKey : option ApiKeyRecord)
| Rejected (status : Z) (code : ErrorCode) (message : string).

(** One run of a middleware: its outcome, the table it leaves, and the
    arguments of the [store.validate] calls it made, in order. *)
Record Run : Type := mkRun {
  outcome : Outcome;
  table_after : Table;
  validated : list string
}.

(** [!authHeader] *)
Definition missing (authHeader : option string) : bool :=
  match authHeader with
  | None => true
  | Some h => (h =? "")%string
  end.

Definition header_text (authHeader : option string) : string :=
  match authHeader with Some h => h | None => "" end.

(** [parts.length !== 2 || parts[0] !== 'Bearer'] *)
Definition bad_format (parts : list string) : bool :=
  negb (Nat.eqb (List.length parts) 2) || negb (nth 0 parts "" =? "Bearer")%string.

Definition createApiKeyAuth `{Host} (k : ApiKeyStore.Tick)
           (authHeader : option string) (t : Table) : Run :=
  if missing authHeader then
    mkRun (Rejected 401 UNAUTHORIZED
             "Missing Authorization header. Provide: Authorization: Bearer <api-key>")
          t []
  else
    let parts := JS.split_space (header_text authHeader) in
    if bad_format parts then
      mkRun (Rejected 401 UNAUTHORIZED
               "Invalid Authorization format. Expected: Bearer <api-key>")
            t []
    else
      let key := nth 1 parts "" in
      if (key =? "")%string || negb (JS.startsWith key "sk-") then
        mkRun (Rejected 401 UNAUTHORIZED "Invalid API key format") t []
      else
        match ApiKeyStore.validate k key t with
        | (None, t') =>
            mkRun (Rejected 401 UNAUTHORIZED "Invalid or expired API key") t' [key]
        | (Some record, t') =>
            mkRun (Next (Some record)) t' [key]
        end.

(** [record.permissions.includes('*') || record.permissions.includes('admin:*')] *)
Definition admin_permission (r : ApiKeyRecord) : bool :=
  JS.includes (permissions r) "*" || JS.includes (permissions r) "admin:*".

(** [adminKey && token === adminKey], with [adminKey] read from
    [process.env.CIPHER_ADMIN_KEY]. *)
Definition is_admin_key (adminKey : option string) (token : string) : bool :=
  match adminKey with
  | Some a => negb (a =? "")%string && (token =? a)%string
  | None => false
  end.

Definition createAdminAuth `{Host} (adminKey : option string) (k : ApiKeyStore.Tick)
           (authHeader : option string) (t : Table) : Run :=
  if missing authHeader then
    mkRun (Rejected 401 UNAUTHORIZED "Admin authentication required") t []
  else
    let parts := JS.split_space (header_text authHeader) in
    if bad_format parts then
      mkRun (Rejected 401 UNAUTHORIZED "Invalid Authorization format") t []
    else
      let token := nth 1 parts "" in
      if is_admin_key adminKey token then mkRun (Next None) t []
      else
        let denied t' calls :=
          mkRun (Rejected 403 UNAUTHORIZED "Invalid admin credentials") t' calls in
        if JS.startsWith token "sk-" then
          match ApiKeyStore.validate k token t with
          | (Some record, t') =>
              if admin_permission record
              then mkRun (Next (Some record)) t' [token]
              else denied t' [token]
          | (None, t') => denied t' [token]
          end
        else denied t [].

(** [createOptionalApiKeyAuth]: never rejects. *)
Definition createOptionalApiKeyAuth `{Host} (k : ApiKeyStore.Tick)
           (authHeader : option string) (t : Table) : Run :=
  if missing authHeader then mkRun (Next None) t []
  else
    let parts := JS.split_space (header_text authHeader) in
    if Nat.eqb (List.length parts) 2 && (nth 0 parts "" =? "Bearer")%string
       && JS.startsWith (nth 1 parts "") "sk-" then
      match ApiKeyStore.validate k (nth 1 parts "") t with
      | (record, t') => mkRun (Next record) t' [nth 1 parts ""]
      end
    else mkRun (Next None) t [].

End Middleware.

(* ------------------------------------------------------------------ *)
(** ** Admin routes *)

Module Routes.

(** The fields the handlers read from [req.body]. *)
Record Body : Type := mkBody {
  b_name : JS.value;
  b_permissions : JS.value;
  b_expiresAt : JS.value
}.

(** Body of the 201 response. *)
Record CreatedKey : Type := mkCreated {
  c_key : string;
  c_id : string;
  c_name : string;
  c_prefix : string;
  c_permissions : list JS.value;
  c_createdAt : Z;
  c_expiresAt : JS.value
}.

(** The object literal the GET handlers build from a record. *)
Record SanitizedKey : Type := mkSanitized {
  v_id : string;
  v_name : string;
  v_prefix : string;
  v_permissions : list JS.value;
  v_createdAt : Z;
  v_lastUsedAt : option Z;
  v_expiresAt : option Z;
  v_revoked : bool
}.

Inductive Payload : Type :=
| Created (c : CreatedKey)
| KeyList (keys : list SanitizedKey)
| KeyDetail (k : SanitizedKey).

Inductive Response : Type :=
| successResponse (data : Payload) (status : Z)
| errorResponse (code : ErrorCode) (message : string) (status : Z).

Definition str_of (v : JS.value) : string :=
  match v with JS.Str s => s | _ => "" end.

(** [typeof v !== 'string'] *)
Definition not_string (v : JS.value) : bool :=
  match v with JS.Str _ => false | _ => true end.

(** [!name || typeof name !== 'string' || name.trim().length === 0] *)
Definition name_missing (v : JS.value) : bool :=
  negb (JS.truthy v) || not_string v || (JS.length (JS.trim (str_of v)) =? 0).

(** [permissions && !Array.isArray(permissions)] *)
Definition permissions_rejected (v : JS.value) : bool :=
  JS.truthy v && negb (JS.isArray v).

(** The [expiresAt] block: entered when the field is neither undefined nor
    null, failing when [Number(expiresAt)] is NaN or not after [now]. *)
Definition expiresAt_rejected `{Host} (now : Z) (v : JS.value) : bool :=
  match v with
  | JS.Undefined | JS.Null => false
  | _ => match Number v with
         | None => true
         | Some expiry => expiry <=? now
         end
  end.

(** The array handed to the store as [permissions]. *)
Definition as_array (v : JS.value) : option (list JS.value) :=
  match v with JS.Arr l => Some l | _ => None end.

(** The object the handler passes to [store.create]:
    [{ name: name.trim(), permissions: permissions || ['*'],
       expiresAt: expiresAt || null }]. *)
Definition store_input (body : Body) : ApiKeyStore.UntypedInput :=
  ApiKeyStore.mkUntyped
    (JS.trim (str_of (b_name body)))
    (as_array (JS.or_else (b_permissions body) (JS.Arr [JS.Str "*"])))
    (JS.or_else (b_expiresAt body) JS.Null).

(** POST /: [now] is the handler's own [Date.now()]; [name_],
    [permissions_] and [expiresAt_] are the destructured body fields.  The
    answer is [None] for the requests whose row this model does not follow
    (see [ApiKeyStore.CreateRun]). *)
Definition post `{Host} `{Engine} (f : ApiKeyStore.Fresh) (now : Z) (body : Body)
           (t : Table) : option (Response * Table) :=
  let name_ := b_name body in
  let permissions_ := b_permissions body in
  let expiresAt_ := b_expiresAt body in
  if name_missing name_ then
    Some (errorResponse VALIDATION_ERROR
            "Name is required and must be a non-empty string" 400, t)
  else if 100 <? JS.length (str_of name_) then
    Some (errorResponse VALIDATION_ERROR "Name must be 100 characters or less" 400, t)
  else if permissions_rejected permissions_ then
    Some (errorResponse VALIDATION_ERROR "Permissions must be an array of strings" 400, t)
  else if expiresAt_rejected now expiresAt_ then
    Some (errorResponse VALIDATION_ERROR
            "expiresAt must be a future Unix timestamp in milliseconds" 400, t)
  else
    match ApiKeyStore.create_untyped f (store_input body) t with
    | ApiKeyStore.OutsideModel => None
    | ApiKeyStore.Threw =>
        Some (errorResponse INTERNAL_ERROR "Failed to create API key" 500, t)
    | ApiKeyStore.Returned key r expiresAt_returned t' =>
        Some (successResponse
                (Created (mkCreated key (id r) (name r) (prefix r)
                                    (permissions r) (createdAt r) expiresAt_returned))
                201, t')
    end.

Definition sanitize (k : ApiKeyRecord) : SanitizedKey :=
  mkSanitized (id k) (name k) (prefix k) (permissions k)
              (createdAt k) (lastUsedAt k) (expiresAt k) (revoked k).

(** [req.query.includeRevoked === 'true'] *)
Definition includeRevoked (q : option string) : bool :=
  match q with Some s => (s =? "true")%string | None => false end.

(** GET / *)
Definition get_all (q : option string) (t : Table) : Response :=
  successResponse (KeyList (map sanitize (ApiKeyStore.list (includeRevoked q) t))) 200.

(** GET /:keyId *)
Definition get_one (keyId : string) (t : Table) : Response :=
  match ApiKeyStore.getById keyId t with
  | None => errorResponse NOT_FOUND "API key not found" 404
  | Some record => successResponse (KeyDetail (sanitize record)) 200
  end.

End Routes.

(* ------------------------------------------------------------------ *)
(** ** A concrete host and sample data for closed examples *)

Module Sample.

(** A stand-in digest that tags its input; it is injective. *)
#[export] Instance host : Host := {|
  hashKey := fun s => ("sha256:" ++ s)%string;
  objectToNumber := fun _ => None
|}.

(** A stand-in engine that keeps every text as text. *)
#[export] Instance engine : Engine := {|
  integerAffinity := fun _ => None
|}.

Definition fresh1 : ApiKeyStore.Fresh :=
  ApiKeyStore.mkFresh "00aa" "id-1" 1000.

Definition fresh2 : ApiKeyStore.Fresh :=
  ApiKeyStore.mkFresh "11bb" "id-2" 2000.

(** The row [create] stores for [fresh1] and default permissions. *)
Definition row1 : ApiKeyRecord :=
  mkRecord "id-1" "CI Bot" "sk-00aa..." "sha256:sk-00aa" [JS.Str "*"] 1000 None None false.

(** A later key limited to reading, expiring at 5000. *)
Definition row2 : ApiKeyRecord :=
  mkRecord "id-2" "Reader" "sk-11bb..." "sha256:sk-11bb" [JS.Str "read"] 2000 None (Some 5000) false.

Definition tick : ApiKeyStore.Tick := ApiKeyStore.mkTick 3000 3001 false.

Definition table : Table := [row1; row2].

(** [table] after [revoke "id-1"]. *)
Definition table_revoked : Table := [set_revoked row1; row2].

(** [table] with another digest in the first row. *)
Definition table_other_digest : Table :=
  [mkRecord "id-1" "CI Bot" "sk-00aa..." "sha256:sk-ffff" [JS.Str "*"] 1000 None None false;
   row2].

Definition body_default : Routes.Body :=
  Routes.mkBody (JS.Str "CI Bot") JS.Undefined JS.Undefined.

(** [row1] with an expiry. *)
Definition row1_expiring : ApiKeyRecord :=
  mkRecord "id-1" "CI Bot" "sk-00aa..." "sha256:sk-00aa" [JS.Str "*"] 1000 None
           (Some 9999) false.

(** A host whose [Number] reads a one-element array of a number, and the
    text [9999] in decimal and in hexadecimal. *)
Definition host_lenient : Host := {|
  hashKey := fun s => ("sha256:" ++ s)%string;
  objectToNumber := fun v =>
    match v with
    | JS.Arr [JS.Num z] => Some z
    | JS.Str s => if (s =? "9999")%string || (s =? "0x270f")%string
                  then Some 9999 else None
    | _ => None
    end
|}.

(** An engine that turns the decimal text into the integer and keeps every
    other text. *)
Definition engine_decimal : Engine := {|
  integerAffinity := fun s => if (s =? "9999")%string then Some 9999 else None
|}.


End Sample.

(* ------------------------------------------------------------------ *)
(** ** Schema invariants and the store's operations as a transition system *)

(** What the schema and [create] guarantee of every table the store builds:
    the PRIMARY KEY on [id], the UNIQUE constraint on [key_hash], and that
    [expires_at] is never stored as [0] ([create] writes NULL for the
    number [0]). *)
Record well_formed (t : Table) : Prop := mk_wf {
  wf_ids : NoDup (map id t);
  wf_hashes : NoDup (map keyHash t);
  wf_expiry : Forall (fun r => expiresAt r <> Some 0) t
}.

(** Every stored digest is the digest of a key carrying the [sk-] tag. *)
Definition issued `{Host} (t : Table) : Prop :=
  Forall (fun r => exists k, JS.startsWith k "sk-" = true /\ keyHash r = hashKey k) t.

(** Only tagged tokens match a stored digest. *)
Definition tagged_store `{Host} (t : Table) : Prop :=
  forall k r, In r t -> keyHash r = hashKey k -> JS.startsWith k "sk-" = true.

(** The digest has no collisions. *)
Definition collision_free `{Host} : Prop :=
  forall a b : string, hashKey a = hashKey b -> a = b.

(** The public operations of [ApiKeyStore]. *)
Inductive Op : Type :=
| OpCreate (f : ApiKeyStore.Fresh) (input : ApiKeyStore.CreateApiKeyInput)
| OpValidate (k : ApiKeyStore.Tick) (key : string)
| OpGetById (i : string)
| OpList (includeRevoked : bool)
| OpRevoke (i : string)
| OpDelete (i : string)
| OpUpdateName (i n : string)
| OpActiveCount.

(** The table an operation leaves behind. *)
Definition step `{Host} (o : Op) (t : Table) : Table :=
  match o with
  | OpCreate f input =>
      match ApiKeyStore.create f input t with
      | Some (_, t') => t'
      | None => t
      end
  | OpValidate k key => snd (ApiKeyStore.validate k key t)
  | OpRevoke i => snd (ApiKeyStore.revoke i t)
  | OpDelete i => snd (ApiKeyStore.delete i t)
  | OpUpdateName i n => snd (ApiKeyStore.updateName i n t)
  | OpGetById _ | OpList _ | OpActiveCount => t
  end.

Definition run `{Host} (ops : list Op) (t : Table) : Table :=
  fold_left (fun acc o => step o acc) ops t.

(** Tables the store can build from an empty database. *)
Definition reachable `{Host} (t : Table) : Prop := exists ops, run ops [] = t.

(** [o] is not the permanent deletion of [i]. *)
Definition keeps (i : string) (o : Op) : Prop :=
  match o with OpDelete j => j <> i | _ => True end.

(** A row satisfies the conditions under which [validate] accepts digest [h]
    at time [now]. *)
Definition live_match (now : Z) (h : string) (r : ApiKeyRecord) : Prop :=
  keyHash r = h /\ revoked r = false /\
  match expiresAt r with Some e => now <= e | None => True end.

(** Two records agree on every field but [lastUsedAt]. *)
Definition same_but_lastUsedAt (a b : ApiKeyRecord) : Prop :=
  id a = id b /\ name a = name b /\ prefix a = prefix b /\ keyHash a = keyHash b /\
  permissions a = permissions b /\ createdAt a = createdAt b /\
  expiresAt a = expiresAt b /\ revoked a = revoked b.

(** Blanks the digest column. *)
Definition erase_digest (r : ApiKeyRecord) : ApiKeyRecord :=
  mkRecord (id r) (name r) (prefix r) "" (permissions r)
           (createdAt r) (lastUsedAt r) (expiresAt r) (revoked r).

(** Two tables differ at most in [key_hash]. *)
Definition same_but_digest (t1 t2 : Table) : Prop :=
  map erase_digest t1 = map erase_digest t2.

(** Newest first. *)
Definition newer_or_same (a b : ApiKeyRecord) : Prop := createdAt b <= createdAt a.

(** A string without a space. *)
Definition nospace (s : string) : Prop := ~ In " "%char (list_ascii_of_string s).

(** The header is exactly [Bearer <token>]: the scheme, one space, and a
    token without spaces. *)
Definition bearer_header (h token : string) : Prop :=
  h = ("Bearer " ++ token)%string /\ nospace token.

(** The presented token is the root secret the operator configured:
    [CIPHER_ADMIN_KEY] is set, not empty, and equal to the token. *)
Definition root_secret (adminKey : option string) (token : string) : Prop :=
  exists a, adminKey = Some a /\ a <> ""%string /\ token = a.



(** The middleware called [next()]. *)
Definition authorized (r : Middleware.Run) : Prop :=
  exists apiKey, Middleware.outcome r = Middleware.Next apiKey.

(** The decision of the admin gate once the header has parsed. *)
Definition admin_decision `{Host} (adminKey : option string) (k : ApiKeyStore.Tick)
           (token : string) (t : Table) : Middleware.Run :=
  if Middleware.is_admin_key adminKey token then Middleware.mkRun (Middleware.Next None) t []
  else if JS.startsWith token "sk-" then
    match ApiKeyStore.validate k token t with
    | (Some record, t') =>
        if Middleware.admin_permission record
        then Middleware.mkRun (Middleware.Next (Some record)) t' [token]
        else Middleware.mkRun
               (Middleware.Rejected 403 UNAUTHORIZED "Invalid admin credentials") t' [token]
    | (None, t') =>
        Middleware.mkRun
          (Middleware.Rejected 403 UNAUTHORIZED "Invalid admin credentials") t' [token]
    end
  else Middleware.mkRun
         (Middleware.Rejected 403 UNAUTHORIZED "Invalid admin credentials") t [].

(** The middleware answered with the given HTTP status. *)
Definition rejected_with (status : Z) (r : Middleware.Run) : Prop :=
  exists code message, Middleware.outcome r = Middleware.Rejected status code message.

(* ------------------------------------------------------------------ *)
(** ** Admin routes: PUT /:keyId and DELETE /:keyId *)

Module KeyRoutes.

(** Bodies of the 200 responses: [{ id, name, updated: true }] and
    [{ id, action }]. *)
Inductive Data : Type :=
| Updated (keyId newName : string)
| Removed (keyId action : string).

Inductive Reply : Type :=
| successResponse (data : Data) (status : Z)
| errorResponse (code : ErrorCode) (message : string) (status : Z).

(** PUT /:keyId; [name_] is the [name] field of the body.  The result of
    [store.updateName] is not looked at. *)
Definition put (keyId : string) (name_ : JS.value) (t : Table) : Reply * Table :=
  if Routes.name_missing name_ then
    (errorResponse VALIDATION_ERROR "Name is required" 400, t)
  else
    match ApiKeyStore.getById keyId t with
    | None => (errorResponse NOT_FOUND "API key not found" 404, t)
    | Some existing =>
        let (_, t') := ApiKeyStore.updateName keyId (JS.trim (Routes.str_of name_)) t in
        (successResponse (Updated keyId (JS.trim (Routes.str_of name_))) 200, t')
    end.

(** [req.query.permanent === 'true'] *)
Definition permanent (q : option string) : bool :=
  match q with Some s => (s =? "true")%string | None => false end.

(** DELETE /:keyId: a permanent delete or, by default, a revocation. *)
Definition delete (keyId : string) (q : option string) (t : Table) : Reply * Table :=
  match ApiKeyStore.getById keyId t with
  | None => (errorResponse NOT_FOUND "API key not found" 404, t)
  | Some existing =>
      if permanent q then
        let (_, t') := ApiKeyStore.delete keyId t in
        (successResponse (Removed keyId "deleted") 200, t')
      else
        let (_, t') := ApiKeyStore.revoke keyId t in
        (successResponse (Removed keyId "revoked") 200, t')
  end.

End KeyRoutes.

(* ------------------------------------------------------------------ *)
(** ** scripts/docker-proxy.cjs: route selection and CORS response headers *)

Module Proxy.

Definition ALLOWED_ORIGINS : list string :=
  ["https://cipher.mywebsites.dev"%string;
   "http://localhost:3000"%string;
   "http://localhost:3002"%string].

(** [origin && ALLOWED_ORIGINS.includes(origin)], as a condition. *)
Definition isAllowedOrigin (origin : option string) : bool :=
  match origin with
  | Some o => negb (o =? "")%string && existsb (fun a => (a =? o)%string) ALLOWED_ORIGINS
  | None => false
  end.

Definition isApiRoute (url : string) : bool :=
  (url =? "/health")%string
  || JS.startsWith url "/health?"
  || JS.startsWith url "/api/"
  || (url =? "/api")%string
  || JS.startsWith url "/ws"
  || JS.startsWith url "/.well-known/".

(** The two backend ports, as numbers. *)
Record Ports : Type := mkPorts {
  API_PORT : Z;
  UI_PORT : Z
}.

(** Target of a plain request: [isApiRoute(req.url) ? API_PORT : UI_PORT]. *)
Definition request_target (p : Ports) (url : string) : Z :=
  if isApiRoute url then API_PORT p else UI_PORT p.

(** Target of an upgrade: [req.url.startsWith('/ws') ? API_PORT : UI_PORT]. *)
Definition upgrade_target (p : Ports) (url : string) : Z :=
  if JS.startsWith url "/ws" then API_PORT p else UI_PORT p.

(** A headers object: its own properties in insertion order. *)
Definition Headers : Type := list (string * JS.value).

(** [h[k]] *)
Fixpoint get (k : string) (h : Headers) : option JS.value :=
  match h with
  | [] => None
  | (k', v) :: rest => if (k' =? k)%string then Some v else get k rest
  end.

(** [h[k] = v]: an existing property keeps its place. *)
Fixpoint set (k : string) (v : JS.value) (h : Headers) : Headers :=
  match h with
  | [] => [(k, v)]
  | (k', v') :: rest =>
      if (k' =? k)%string then (k', v) :: rest else (k', v') :: set k v rest
  end.

(** [delete h[k]] *)
Definition remove (k : string) (h : Headers) : Headers :=
  filter (fun kv => negb (fst kv =? k)%string) h.

Definition origin_value (origin : option string) : JS.value :=
  match origin with Some o => JS.Str o | None => JS.Undefined end.

(** The headers [proxyRequest] writes on the client response, from the
    target port, the client's [origin] header and the backend's headers. *)
Definition responseHeaders (p : Ports) (targetPort : Z) (requestOrigin : option string)
           (upstream : Headers) : Headers :=
  if targetPort =? API_PORT p then
    if isAllowedOrigin requestOrigin then
      set "access-control-allow-headers" (JS.Str "Content-Type, Authorization")
        (set "access-control-allow-methods" (JS.Str "GET, POST, PUT, DELETE, OPTIONS")
           (set "access-control-allow-credentials" (JS.Str "true")
              (set "access-control-allow-origin" (origin_value requestOrigin) upstream)))
    else
      remove "access-control-allow-credentials"
        (remove "access-control-allow-origin" upstream)
  else upstream.

(** Headers sent back for a plain request to [url]. *)
Definition respond (p : Ports) (url : string) (requestOrigin : option string)
           (upstream : Headers) : Headers :=
  responseHeaders p (request_target p url) requestOrigin upstream.

End Proxy.

(* ------------------------------------------------------------------ *)
(** ** Further notions used in the statements *)

(** Two lookups agree up to [lastUsedAt]. *)
Definition agree_but_lastUsedAt (a b : option ApiKeyRecord) : Prop :=
  match a, b with
  | Some x, Some y => same_but_lastUsedAt x y
  | None, None => True
  | _, _ => False
  end.

(** The row was written by [create] for some key: tagged digest, display
    prefix of that key, and an expiry that is not [0]. *)
Definition created_row `{Host} (r : ApiKeyRecord) : Prop :=
  exists k,
    JS.startsWith k "sk-" = true
    /\ keyHash r = hashKey k
    /\ prefix r = (substring 0 10 k ++ "...")%string
    /\ expiresAt r <> Some 0.

(** HTTP status of a reply of the POST and GET handlers. *)
Definition status_of (r : Routes.Response) : Z :=
  match r with
  | Routes.successResponse _ st => st
  | Routes.errorResponse _ _ st => st
  end.

(** A record is not expired at [now]. *)
Definition unexpired (now : Z) (r : ApiKeyRecord) : Prop :=
  match expiresAt r with Some e => now <= e | None => True end.

(* ------------------------------------------------------------------ *)
(** ** Generic list facts *)

Section ListFacts.
Context {A B : Type}.

Lemma NoDup_map_inj (f : A -> B) (l : list A) (a b : A) :
  NoDup (map f l) -> In a l -> In b l -> f a = f b -> a = b.
Proof.
  induction l as [|x l IH]; simpl; intros Hnd Ha Hb Hf; [contradiction|].
  inversion Hnd as [|? ? Hnotin Hnd']; subst.
  destruct Ha as [->|Ha], Hb as [->|Hb]; auto.
  - exfalso. apply Hnotin. rewrite Hf. now apply in_map.
  - exfalso. apply Hnotin. rewrite <- Hf. now apply in_map.
Qed.

Lemma find_unique (p : A -> bool) (f : A -> B) (l : list A) (a : A) :
  NoDup (map f l) -> In a l -> p a = true ->
  (forall x, In x l -> p x = true -> f x = f a) ->
  find p l = Some a.
Proof.
  intros Hnd Ha Hp Hkey.
  destruct (find p l) as [x|] eqn:E.
  - apply find_some in E as [Hx Hpx].
    f_equal. eapply NoDup_map_inj; eauto.
  - eapply find_none in E; eauto. congruence.
Qed.

Lemma existsb_false_notin (f : A -> B) (eqb : B -> B -> bool) (l : list A) (v : B) :
  (forall x y, eqb x y = true <-> x = y) ->
  existsb (fun r => eqb (f r) v) l = false -> ~ In v (map f l).
Proof.
  intros Heq Hex Hin. apply in_map_iff in Hin as [x [Hx Hin]].
  assert (existsb (fun r => eqb (f r) v) l = true) as E.
  { apply existsb_exists. exists x. split; auto. now apply Heq. }
  congruence.
Qed.

End ListFacts.

Lemma column_unique_filter {C : Type} (col : ApiKeyRecord -> C)
      (keep : ApiKeyRecord -> bool) (t : Table) :
  NoDup (map col t) -> NoDup (map col (filter keep t)).
Proof.
  intros Hnd. induction t as [|x t IH]; simpl; [constructor|].
  apply NoDup_cons_iff in Hnd as [Hnotin Hnd].
  destruct (keep x); simpl; auto.
  apply NoDup_cons; auto.
  intros Hin. apply Hnotin.
  apply in_map_iff in Hin as [y [Hy Hin]].
  apply filter_In in Hin as [Hin _].
  rewrite <- Hy. now apply in_map.
Qed.

(* ------------------------------------------------------------------ *)
(** ** Effect of the statements on the columns *)

Section Statements.

Variable f : ApiKeyRecord -> ApiKeyRecord.
Variable i : string.

Lemma update_keeps_column {C : Type} (col : ApiKeyRecord -> C) (t : Table) :
  (forall r, col (f r) = col r) ->
  map col (fst (Sql.update_where_id f i t)) = map col t.
Proof.
  intros Hcol. unfold Sql.update_where_id. simpl.
  rewrite map_map. apply map_ext.
  intros r. destruct (Sql.has_id i r); auto.
Qed.

Lemma update_Forall (P : ApiKeyRecord -> Prop) (t : Table) :
  (forall r, P r -> P (f r)) ->
  Forall P t -> Forall P (fst (Sql.update_where_id f i t)).
Proof.
  intros HP Ht. unfold Sql.update_where_id. simpl.
  apply Forall_forall. intros r' Hin.
  apply in_map_iff in Hin as [r [<- Hin]].
  rewrite Forall_forall in Ht.
  destruct (Sql.has_id i r); auto.
Qed.

Lemma update_well_formed (t : Table) :
  (forall r, id (f r) = id r) ->
  (forall r, keyHash (f r) = keyHash r) ->
  (forall r, expiresAt (f r) = expiresAt r) ->
  well_formed t -> well_formed (fst (Sql.update_where_id f i t)).
Proof.
  intros Hid Hh He [W1 W2 W3]. split.
  - now rewrite update_keeps_column.
  - now rewrite update_keeps_column.
  - apply update_Forall; auto. intros r. now rewrite He.
Qed.

Lemma update_changes (t : Table) :
  (0 <? snd (Sql.update_where_id f i t)) = existsb (Sql.has_id i) t.
Proof.
  unfold Sql.update_where_id. simpl.
  induction t as [|r t IH]; simpl; auto.
  destruct (Sql.has_id i r); simpl; auto.
Qed.

End Statements.

Lemma delete_changes (i : string) (t : Table) :
  (0 <? snd (Sql.deleteKey i t)) = existsb (Sql.has_id i) t.
Proof.
  unfold Sql.deleteKey. simpl.
  induction t as [|r t IH]; simpl; auto.
  destruct (Sql.has_id i r); simpl; auto.
Qed.

Lemma delete_well_formed (i : string) (t : Table) :
  well_formed t -> well_formed (fst (Sql.deleteKey i t)).
Proof.
  intros [W1 W2 W3]. unfold Sql.deleteKey. simpl. split.
  - now apply column_unique_filter.
  - now apply column_unique_filter.
  - apply Forall_forall. intros r Hin. apply filter_In in Hin as [Hin _].
    rewrite Forall_forall in W3. auto.
Qed.

Lemma insert_spec (r : ApiKeyRecord) (t t' : Table) :
  Sql.insert r t = Some t' ->
  t' = t ++ [r] /\ ~ In (id r) (map id t) /\ ~ In (keyHash r) (map keyHash t).
Proof.
  unfold Sql.insert.
  destruct (existsb (Sql.has_id (id r)) t) eqn:E1; simpl; [discriminate|].
  destruct (existsb (Sql.has_hash (keyHash r)) t) eqn:E2; [discriminate|].
  intros [= <-]. repeat split.
  - eapply existsb_false_notin with (eqb := String.eqb); [apply String.eqb_eq|exact E1].
  - eapply existsb_false_notin with (eqb := String.eqb); [apply String.eqb_eq|exact E2].
Qed.

Lemma insert_fresh (r : ApiKeyRecord) (t : Table) :
  ~ In (id r) (map id t) -> ~ In (keyHash r) (map keyHash t) ->
  Sql.insert r t = Some (t ++ [r]).
Proof.
  intros Hid Hh. unfold Sql.insert.
  destruct (existsb (Sql.has_id (id r)) t) eqn:E1.
  - exfalso. apply existsb_exists in E1 as [x [Hx E]].
    apply String.eqb_eq in E. apply Hid. rewrite <- E. now apply in_map.
  - destruct (existsb (Sql.has_hash (keyHash r)) t) eqn:E2; auto.
    exfalso. apply existsb_exists in E2 as [x [Hx E]].
    apply String.eqb_eq in E. apply Hh. rewrite <- E. now apply in_map.
Qed.

Lemma NoDup_snoc {A : Type} (l : list A) (a : A) :
  NoDup l -> ~ In a l -> NoDup (l ++ [a]).
Proof.
  intros Hl Ha. apply NoDup_app; auto.
  - repeat constructor. intros [].
  - intros x Hx [<-|[]]. contradiction.
Qed.

Lemma insert_well_formed (r : ApiKeyRecord) (t t' : Table) :
  expiresAt r <> Some 0 ->
  well_formed t -> Sql.insert r t = Some t' -> well_formed t'.
Proof.
  intros He [W1 W2 W3] Hins.
  apply insert_spec in Hins as (-> & Hid & Hh).
  split.
  - rewrite map_app. simpl. now apply NoDup_snoc.
  - rewrite map_app. simpl. now apply NoDup_snoc.
  - apply Forall_app. split; auto.
Qed.

Lemma expiresAt_or_null_nonzero (e : option Z) :
  ApiKeyStore.expiresAt_or_null e <> Some 0.
Proof.
  destruct e as [z|]; simpl; [|discriminate].
  destruct (z =? 0) eqn:E; [discriminate|].
  apply Z.eqb_neq in E. congruence.
Qed.

(** The store methods in terms of their statements. *)

Lemma revoke_table (i : string) (t : Table) :
  snd (ApiKeyStore.revoke i t) = fst (Sql.update_where_id set_revoked i t).
Proof. reflexivity. Qed.

Lemma revoke_result (i : string) (t : Table) :
  fst (ApiKeyStore.revoke i t) = existsb (Sql.has_id i) t.
Proof. unfold ApiKeyStore.revoke, Sql.revoke. simpl. apply (update_changes set_revoked). Qed.

Lemma delete_table (i : string) (t : Table) :
  snd (ApiKeyStore.delete i t) = fst (Sql.deleteKey i t).
Proof. reflexivity. Qed.

Lemma updateName_table (i n : string) (t : Table) :
  snd (ApiKeyStore.updateName i n t) = fst (Sql.update_where_id (set_name n) i t).
Proof. reflexivity. Qed.

Section StoreInvariants.
Context `{Host}.

Lemma create_inserts (f : ApiKeyStore.Fresh) (input : ApiKeyStore.CreateApiKeyInput)
      (t t' : Table) (res : ApiKeyStore.CreateApiKeyResult) :
  ApiKeyStore.create f input t = Some (res, t') ->
  t' = t ++ [ApiKeyStore.record res]
  /\ ApiKeyStore.key res = ApiKeyStore.generateKey f
  /\ ApiKeyStore.record res =
       mkRecord (ApiKeyStore.uuid f) (ApiKeyStore.in_name input)
                (substring 0 10 (ApiKeyStore.generateKey f) ++ "...")%string
                (hashKey (ApiKeyStore.generateKey f))
                (ApiKeyStore.permissions_or_default (ApiKeyStore.in_permissions input))
                (ApiKeyStore.created_now f) None
                (ApiKeyStore.expiresAt_or_null (ApiKeyStore.in_expiresAt input)) false
  /\ ~ In (ApiKeyStore.uuid f) (map id t)
  /\ ~ In (hashKey (ApiKeyStore.generateKey f)) (map keyHash t).
Proof.
  unfold ApiKeyStore.create.
  match goal with |- context [Sql.insert ?r t] => destruct (Sql.insert r t) eqn:E end;
    [|discriminate].
  intros [= <- <-]. simpl.
  apply insert_spec in E as (-> & Hid & Hh). simpl in *. auto.
Qed.

Lemma validate_table (k : ApiKeyStore.Tick) (key : string) (t : Table) :
  snd (ApiKeyStore.validate k key t) = t
  \/ exists r, snd (ApiKeyStore.validate k key t)
               = fst (Sql.updateLastUsed (ApiKeyStore.now_touch k) (id r) t).
Proof.
  unfold ApiKeyStore.validate.
  destruct (Sql.findByHash (hashKey key) t) as [r|]; simpl; auto.
  destruct (ApiKeyStore.expired _ r); simpl; auto.
  destruct (ApiKeyStore.touch_throws k); simpl; eauto.
Qed.

Lemma step_well_formed (o : Op) (t : Table) :
  well_formed t -> well_formed (step o t).
Proof.
  intros W. destruct o; unfold step; auto.
  - destruct (ApiKeyStore.create f input t) as [[res t']|] eqn:E; auto.
    unfold ApiKeyStore.create in E.
    match type of E with context [Sql.insert ?r t] =>
      destruct (Sql.insert r t) eqn:Hins end; [|discriminate].
    injection E as _ <-.
    eapply insert_well_formed; eauto. simpl. apply expiresAt_or_null_nonzero.
  - destruct (validate_table k key t) as [->|[r ->]]; auto.
    apply update_well_formed; auto.
  - rewrite revoke_table. apply update_well_formed; auto.
  - rewrite delete_table. now apply delete_well_formed.
  - rewrite updateName_table. apply update_well_formed; auto.
Qed.

Lemma run_well_formed (ops : list Op) (t : Table) :
  well_formed t -> well_formed (run ops t).
Proof.
  revert t. induction ops as [|o ops IH]; simpl; intros t W; auto.
  apply IH. now apply step_well_formed.
Qed.

Lemma empty_well_formed : well_formed [].
Proof. split; constructor. Qed.

Lemma reachable_well_formed (t : Table) : reachable t -> well_formed t.
Proof. intros [ops <-]. apply run_well_formed, empty_well_formed. Qed.

End StoreInvariants.

(* ------------------------------------------------------------------ *)
(** ** validate *)

Section Validate.
Context `{Host}.

Lemma findByHash_Some (h : string) (t : Table) (r : ApiKeyRecord) :
  Sql.findByHash h t = Some r -> In r t /\ keyHash r = h /\ revoked r = false.
Proof.
  unfold Sql.findByHash. intros E.
  apply find_some in E as [Hin Hp].
  apply andb_true_iff in Hp as [Hh Ha].
  apply String.eqb_eq in Hh. apply negb_true_iff in Ha. auto.
Qed.

Lemma findByHash_unique (h : string) (t : Table) (r : ApiKeyRecord) :
  NoDup (map keyHash t) -> In r t -> keyHash r = h -> revoked r = false ->
  Sql.findByHash h t = Some r.
Proof.
  intros Hnd Hin Hh Hrev. unfold Sql.findByHash.
  apply find_unique with (f := keyHash); auto.
  - unfold Sql.has_hash, Sql.active. rewrite Hrev.
    apply andb_true_iff. split; auto. now apply String.eqb_eq.
  - intros x _ Hp. apply andb_true_iff in Hp as [Hx _].
    apply String.eqb_eq in Hx. congruence.
Qed.

Lemma expired_false (now : Z) (r : ApiKeyRecord) :
  expiresAt r <> Some 0 ->
  (ApiKeyStore.expired now r = false <->
   match expiresAt r with Some e => now <= e | None => True end).
Proof.
  unfold ApiKeyStore.expired. intros Hz.
  destruct (expiresAt r) as [e|]; [|tauto].
  assert (e <> 0) as Hne by congruence.
  apply Z.eqb_neq in Hne. rewrite Hne. simpl.
  rewrite Z.ltb_ge. tauto.
Qed.

(** What [validate] returns, in terms of its lookup and expiry test. *)
Lemma validate_result (k : ApiKeyStore.Tick) (key : string) (t : Table) :
  fst (ApiKeyStore.validate k key t) =
  match Sql.findByHash (hashKey key) t with
  | Some r => if ApiKeyStore.expired (ApiKeyStore.now_check k) r then None else Some r
  | None => None
  end.
Proof.
  unfold ApiKeyStore.validate.
  destruct (Sql.findByHash (hashKey key) t) as [r|]; auto.
  destruct (ApiKeyStore.expired _ r); auto.
  destruct (ApiKeyStore.touch_throws k); auto.
Qed.

Lemma validate_accepts_iff (k : ApiKeyStore.Tick) (key : string) (t : Table)
      (r : ApiKeyRecord) :
  well_formed t ->
  (fst (ApiKeyStore.validate k key t) = Some r <->
   In r t /\ live_match (ApiKeyStore.now_check k) (hashKey key) r).
Proof.
  intros [W1 W2 W3]. rewrite validate_result. unfold live_match. split.
  - destruct (Sql.findByHash (hashKey key) t) as [x|] eqn:E; [|discriminate].
    destruct (ApiKeyStore.expired _ x) eqn:Ex; [discriminate|].
    intros [= ->].
    apply findByHash_Some in E as (Hin & Hh & Hrev).
    repeat split; auto.
    apply expired_false in Ex; auto.
    rewrite Forall_forall in W3. auto.
  - intros (Hin & Hh & Hrev & Hexp).
    rewrite (findByHash_unique (hashKey key) t r); auto.
    assert (ApiKeyStore.expired (ApiKeyStore.now_check k) r = false) as ->; auto.
    apply expired_false; auto.
    rewrite Forall_forall in W3. auto.
Qed.

(** C1. For every key string, [validate] returns a record exactly when
    that record is a stored row whose digest equals the digest of the key,
    whose revoked flag is false and whose [expiresAt] is absent or not
    before the current time; when no such row exists (no matching digest,
    a revoked row, or an elapsed [expiresAt]) it returns absent.  Stated
    for tables that satisfy the schema constraints. *)
Theorem validate_iff_live_row (k : ApiKeyStore.Tick) (key : string) (t : Table) :
  well_formed t ->
  (forall r, fst (ApiKeyStore.validate k key t) = Some r <->
             In r t /\ live_match (ApiKeyStore.now_check k) (hashKey key) r)
  /\ (fst (ApiKeyStore.validate k key t) = None <->
      ~ exists r, In r t /\ live_match (ApiKeyStore.now_check k) (hashKey key) r).
Proof.
  intros W. split.
  - intros r. now apply validate_accepts_iff.
  - split.
    + intros Hnone [r Hr]. apply validate_accepts_iff in Hr; auto. congruence.
    + intros Hno. destruct (fst (ApiKeyStore.validate k key t)) as [r|] eqn:E; auto.
      exfalso. apply Hno. exists r. now apply validate_accepts_iff.
Qed.

End Validate.

Lemma Forall2_map_self {A : Type} (R : A -> A -> Prop) (g : A -> A) (l : list A) :
  (forall a, In a l -> R a (g a)) -> Forall2 R l (map g l).
Proof.
  induction l as [|a l IH]; simpl; intros HR; constructor; auto.
Qed.

Lemma Forall2_same {A : Type} (R : A -> A -> Prop) (l : list A) :
  (forall a, In a l -> R a a) -> Forall2 R l l.
Proof.
  intros HR. rewrite <- (map_id l) at 2. now apply Forall2_map_self.
Qed.

Lemma same_but_lastUsedAt_refl (r : ApiKeyRecord) : same_but_lastUsedAt r r.
Proof. unfold same_but_lastUsedAt. tauto. Qed.

Lemma same_but_lastUsedAt_touch (now : Z) (r : ApiKeyRecord) :
  same_but_lastUsedAt r (set_lastUsedAt now r).
Proof. unfold same_but_lastUsedAt. simpl. tauto. Qed.

Section ValidateFrame.
Context `{Host}.

(** C10. [validate] is frame-bounded.  When it returns absent (unknown
    digest, revoked or expired key) the table is left exactly as it was, so
    an expired key's [lastUsedAt] is not touched.  When it returns a record,
    the table keeps its rows in place, every row other than that record is
    unchanged, and that record changes in no field but [lastUsedAt].  The
    returned value does not depend on whether the [lastUsedAt] update
    throws (nor on the time it would write), and a throwing update leaves
    the table unchanged. *)
Theorem validate_frame (k : ApiKeyStore.Tick) (key : string) (t : Table) :
  well_formed t ->
  (fst (ApiKeyStore.validate k key t) = None -> snd (ApiKeyStore.validate k key t) = t)
  /\ (forall rec, fst (ApiKeyStore.validate k key t) = Some rec ->
        Forall2 (fun r r' => same_but_lastUsedAt r r' /\ (r <> rec -> r' = r))
                t (snd (ApiKeyStore.validate k key t)))
  /\ (forall now' throws,
        fst (ApiKeyStore.validate
               (ApiKeyStore.mkTick (ApiKeyStore.now_check k) now' throws) key t)
        = fst (ApiKeyStore.validate k key t))
  /\ (ApiKeyStore.touch_throws k = true -> snd (ApiKeyStore.validate k key t) = t).
Proof.
  intros W. repeat split.
  - unfold ApiKeyStore.validate.
    destruct (Sql.findByHash (hashKey key) t) as [r|]; auto.
    destruct (ApiKeyStore.expired _ r); auto.
    destruct (ApiKeyStore.touch_throws k); discriminate.
  - intros rec Hrec.
    assert (In rec t) as Hin.
    { apply validate_accepts_iff in Hrec; tauto. }
    revert Hrec. unfold ApiKeyStore.validate.
    destruct (Sql.findByHash (hashKey key) t) as [r|]; [|discriminate].
    destruct (ApiKeyStore.expired _ r); [discriminate|].
    destruct (ApiKeyStore.touch_throws k); simpl; intros [= ->].
    + apply Forall2_same. intros a _. split; auto using same_but_lastUsedAt_refl.
    + apply Forall2_map_self. intros a Ha.
      unfold Sql.has_id. destruct (id a =? id rec)%string eqn:E.
      * apply String.eqb_eq in E.
        assert (a = rec) as -> by (eapply NoDup_map_inj; eauto using wf_ids).
        split; [apply same_but_lastUsedAt_touch | congruence].
      * split; auto using same_but_lastUsedAt_refl.
  - intros now' throws. now rewrite !validate_result.
  - intros Hthrow. unfold ApiKeyStore.validate. rewrite Hthrow.
    destruct (Sql.findByHash (hashKey key) t) as [r|]; auto.
    destruct (ApiKeyStore.expired _ r); auto.
Qed.

End ValidateFrame.

(* ------------------------------------------------------------------ *)
(** ** revoke *)

Lemma has_id_existsb (i : string) (t : Table) :
  existsb (Sql.has_id i) t = true <-> In i (map id t).
Proof.
  rewrite existsb_exists, in_map_iff. unfold Sql.has_id.
  split; intros [r Hr]; exists r; rewrite String.eqb_eq in *; tauto.
Qed.

Lemma revoke_unchanged (i : string) (t : Table) :
  (forall r, In r t -> id r = i -> revoked r = true) ->
  snd (ApiKeyStore.revoke i t) = t.
Proof.
  intros Hall. rewrite revoke_table. unfold Sql.update_where_id. simpl.
  rewrite <- (map_id t) at 2. apply map_ext_in.
  intros r Hr. unfold Sql.has_id.
  destruct (id r =? i)%string eqn:E; auto.
  apply String.eqb_eq in E. specialize (Hall r Hr E).
  destruct r; simpl in *. unfold set_revoked. simpl. now subst.
Qed.

Lemma revoke_marks (i : string) (t : Table) (r : ApiKeyRecord) :
  In r (snd (ApiKeyStore.revoke i t)) -> id r = i -> revoked r = true.
Proof.
  rewrite revoke_table. unfold Sql.update_where_id. simpl.
  intros Hin Hid. apply in_map_iff in Hin as [x [Hx Hin]].
  unfold Sql.has_id in Hx. destruct (id x =? i)%string eqn:E; subst; auto.
  apply String.eqb_neq in E. contradiction.
Qed.

Lemma revoke_keeps_ids (i : string) (t : Table) :
  map id (snd (ApiKeyStore.revoke i t)) = map id t.
Proof. rewrite revoke_table. now apply update_keeps_column. Qed.

(** C3, as the code has it.  [revoke id] returns true exactly when a row
    with that id exists, whether or not it was already revoked, and leaves
    every such row revoked; a second call on the already-revoked id returns
    true again and leaves every row unchanged; on an unknown id it returns
    false and changes nothing. *)
Theorem revoke_reports_matching_row (i : string) (t : Table) :
  (fst (ApiKeyStore.revoke i t) = true <-> In i (map id t))
  /\ (forall r, In r (snd (ApiKeyStore.revoke i t)) -> id r = i -> revoked r = true)
  /\ fst (ApiKeyStore.revoke i (snd (ApiKeyStore.revoke i t))) = fst (ApiKeyStore.revoke i t)
  /\ snd (ApiKeyStore.revoke i (snd (ApiKeyStore.revoke i t))) = snd (ApiKeyStore.revoke i t)
  /\ (~ In i (map id t) -> ApiKeyStore.revoke i t = (false, t)).
Proof.
  repeat split.
  - rewrite revoke_result. apply has_id_existsb.
  - rewrite revoke_result. apply has_id_existsb.
  - apply revoke_marks.
  - rewrite !revoke_result.
    destruct (existsb (Sql.has_id i) t) eqn:E.
    + apply has_id_existsb. rewrite revoke_keeps_ids. now apply has_id_existsb.
    + destruct (existsb (Sql.has_id i) (snd (ApiKeyStore.revoke i t))) eqn:E'; auto.
      apply has_id_existsb in E'. rewrite revoke_keeps_ids in E'.
      apply has_id_existsb in E'. congruence.
  - apply revoke_unchanged. apply revoke_marks.
  - intros Hno.
    rewrite (surjective_pairing (ApiKeyStore.revoke i t)). f_equal.
    + rewrite revoke_result.
      destruct (existsb (Sql.has_id i) t) eqn:E; auto.
      apply has_id_existsb in E. contradiction.
    + apply revoke_unchanged. intros r Hr Hid. exfalso. apply Hno.
      rewrite <- Hid. now apply in_map.
Qed.

(** C3 fails as stated: the second [revoke] of the same id returns true,
    not false. *)
Lemma revoke_twice_returns_true :
  fst (ApiKeyStore.revoke "id-1" [Sample.row1]) = true
  /\ fst (ApiKeyStore.revoke "id-1" (snd (ApiKeyStore.revoke "id-1" [Sample.row1]))) <> false.
Proof. split; [reflexivity | discriminate]. Qed.

(* ------------------------------------------------------------------ *)
(** ** The revoked flag only ever goes from false to true *)

Section Monotonic.
Context `{Host}.

Lemma update_keeps_revoked (g : ApiKeyRecord -> ApiKeyRecord) (i : string) (t : Table)
      (r r' : ApiKeyRecord) :
  (forall x, id (g x) = id x) ->
  (forall x, revoked x = true -> revoked (g x) = true) ->
  NoDup (map id t) -> In r t -> revoked r = true ->
  In r' (fst (Sql.update_where_id g i t)) -> id r' = id r -> revoked r' = true.
Proof.
  intros Hid Hrev Hnd Hr Hrv Hin Heq.
  unfold Sql.update_where_id in Hin. simpl in Hin.
  apply in_map_iff in Hin as [x [Hx Hin]].
  assert (id x = id r) as Hxr.
  { rewrite <- Heq, <- Hx. destruct (Sql.has_id i x); auto. }
  assert (x = r) as -> by (eapply NoDup_map_inj; eauto).
  rewrite <- Hx. destruct (Sql.has_id i r); auto.
Qed.

Lemma update_keeps_row (g : ApiKeyRecord -> ApiKeyRecord) (i : string) (t : Table)
      (r : ApiKeyRecord) :
  (forall x, id (g x) = id x) ->
  In r t -> exists r', In r' (fst (Sql.update_where_id g i t)) /\ id r' = id r.
Proof.
  intros Hid Hr. unfold Sql.update_where_id. simpl.
  exists (if Sql.has_id i r then g r else r). split.
  - apply in_map_iff. eauto.
  - destruct (Sql.has_id i r); auto.
Qed.

Lemma step_keeps_revoked (o : Op) (t : Table) (r r' : ApiKeyRecord) :
  well_formed t -> In r t -> revoked r = true ->
  In r' (step o t) -> id r' = id r -> revoked r' = true.
Proof.
  intros W Hr Hrv. pose proof (wf_ids t W) as Hnd.
  assert (In r' t -> id r' = id r -> revoked r' = true) as Hsame.
  { intros Hin Heq. assert (r' = r) as -> by (eapply NoDup_map_inj; eauto). auto. }
  destruct o; unfold step; auto.
  - destruct (ApiKeyStore.create f input t) as [[res t']|] eqn:E; auto.
    apply create_inserts in E as (-> & _ & Hrec & Hfresh & _).
    intros Hin Heq. apply in_app_or in Hin as [Hin|[<-|[]]]; auto.
    exfalso. apply Hfresh. rewrite Hrec in Heq. simpl in Heq. rewrite Heq.
    now apply in_map.
  - destruct (validate_table k key t) as [->|[x ->]]; auto.
    apply update_keeps_revoked; auto.
  - rewrite revoke_table. apply update_keeps_revoked; auto.
  - rewrite delete_table. unfold Sql.deleteKey. simpl.
    intros Hin. apply filter_In in Hin as [Hin _]. auto.
  - rewrite updateName_table. apply update_keeps_revoked; auto.
Qed.

Lemma step_keeps_row (o : Op) (t : Table) (r : ApiKeyRecord) :
  keeps (id r) o -> In r t -> exists r', In r' (step o t) /\ id r' = id r.
Proof.
  intros Hk Hr. destruct o; unfold step; eauto.
  - destruct (ApiKeyStore.create f input t) as [[res t']|] eqn:E; eauto.
    apply create_inserts in E as (-> & _).
    exists r. split; auto. apply in_or_app. auto.
  - destruct (validate_table k key t) as [->|[x ->]]; eauto.
    apply update_keeps_row; auto.
  - rewrite revoke_table. apply update_keeps_row; auto.
  - rewrite delete_table. unfold Sql.deleteKey. simpl.
    exists r. split; auto. apply filter_In. split; auto.
    unfold Sql.has_id. simpl in Hk.
    apply negb_true_iff, String.eqb_neq. congruence.
  - rewrite updateName_table. apply update_keeps_row; auto.
Qed.

Lemma run_keeps_revoked (ops : list Op) (t : Table) (r : ApiKeyRecord) :
  well_formed t -> In r t -> revoked r = true ->
  Forall (keeps (id r)) ops ->
  exists r', In r' (run ops t) /\ id r' = id r /\ revoked r' = true.
Proof.
  revert t r. induction ops as [|o ops IH]; simpl; intros t r W Hr Hrv Hk.
  - eauto.
  - inversion Hk as [|? ? Ho Hops]; subst.
    destruct (step_keeps_row o t r Ho Hr) as [r1 [Hin1 Hid1]].
    assert (revoked r1 = true) as Hrv1 by (eapply step_keeps_revoked; eauto).
    destruct (IH (step o t) r1) as [r' (Hin' & Hid' & Hrv')]; auto.
    + now apply step_well_formed.
    + now rewrite Hid1.
    + exists r'. repeat split; auto. congruence.
Qed.

(** C7. The revoked flag is monotonic.  No operation of the store
    (create, validate, updateName, revoke, delete, getById, list,
    activeCount) leaves a row that was revoked with its flag back at false;
    and along any sequence of operations that does not permanently delete
    the record, the record is still present and still revoked. *)
Theorem revoked_never_cleared (t : Table) (r : ApiKeyRecord) :
  well_formed t -> In r t -> revoked r = true ->
  (forall o r', In r' (step o t) -> id r' = id r -> revoked r' = true)
  /\ (forall ops, Forall (keeps (id r)) ops ->
        exists r', In r' (run ops t) /\ id r' = id r /\ revoked r' = true).
Proof.
  intros W Hr Hrv. split.
  - intros o r'. now apply step_keeps_revoked.
  - intros ops. now apply run_keeps_revoked.
Qed.

End Monotonic.

(* ------------------------------------------------------------------ *)
(** ** list *)

Lemma place_perm (r : ApiKeyRecord) (l : list ApiKeyRecord) :
  Permutation (Sql.place r l) (r :: l).
Proof.
  induction l as [|x l IH]; simpl; auto.
  destruct (createdAt x <=? createdAt r); auto.
  rewrite IH. apply perm_swap.
Qed.

Lemma order_perm (l : list ApiKeyRecord) :
  Permutation (Sql.order_by_created_desc l) l.
Proof.
  induction l as [|x l IH]; simpl; auto.
  rewrite place_perm. now constructor.
Qed.

Lemma place_sorted (r : ApiKeyRecord) (l : list ApiKeyRecord) :
  StronglySorted newer_or_same l -> StronglySorted newer_or_same (Sql.place r l).
Proof.
  induction l as [|x l IH]; simpl; intros Hs.
  - repeat constructor.
  - inversion Hs as [|? ? Hl Hx]; subst.
    destruct (createdAt x <=? createdAt r) eqn:E.
    + apply Z.leb_le in E. constructor; auto.
      constructor; auto.
      eapply Forall_impl; [|exact Hx].
      unfold newer_or_same. intros a Ha. lia.
    + apply Z.leb_gt in E. constructor; auto.
      apply Forall_forall. intros a Ha.
      apply (Permutation_in _ (place_perm r l)) in Ha.
      destruct Ha as [<-|Ha].
      * unfold newer_or_same. lia.
      * rewrite Forall_forall in Hx. auto.
Qed.

Lemma order_sorted (l : list ApiKeyRecord) :
  StronglySorted newer_or_same (Sql.order_by_created_desc l).
Proof.
  induction l as [|x l IH]; simpl; [constructor|]. now apply place_sorted.
Qed.

(** C8. [list(false)] returns exactly the rows whose revoked flag is false
    and [list(true)] returns all rows, revoked ones included, each row as
    often as the table holds it; in both cases the sequence is ordered by
    descending [createdAt]. *)
Theorem list_rows_newest_first (t : Table) :
  Permutation (ApiKeyStore.list false t) (filter (fun r => negb (revoked r)) t)
  /\ Permutation (ApiKeyStore.list true t) t
  /\ (forall includeRevoked,
        StronglySorted newer_or_same (ApiKeyStore.list includeRevoked t)).
Proof.
  repeat split.
  - apply order_perm.
  - apply order_perm.
  - intros [|]; apply order_sorted.
Qed.

(* ------------------------------------------------------------------ *)
(** ** Parsing the Authorization header *)

Lemma split_space_nonempty (s : string) : JS.split_space s <> [].
Proof.
  destruct s as [|c rest]; simpl; [discriminate|].
  destruct (Ascii.eqb c " "); [discriminate|].
  destruct (JS.split_space rest); discriminate.
Qed.

Lemma nospace_cons (c : ascii) (s : string) :
  nospace (String c s) <-> c <> " "%char /\ nospace s.
Proof.
  unfold nospace. simpl. split.
  - intros Hn. split; intros E; apply Hn; auto.
  - intros [Hc Hs] [E|E]; auto.
Qed.

Lemma split_space_plain (a : string) :
  nospace a -> JS.split_space a = [a].
Proof.
  induction a as [|c a IH]; simpl; intros Hn; auto.
  apply nospace_cons in Hn as [Hc Hn].
  apply Ascii.eqb_neq in Hc. rewrite Hc, IH; auto.
Qed.

Lemma split_space_app (a rest : string) :
  nospace a ->
  JS.split_space (a ++ String " " rest)%string = a :: JS.split_space rest.
Proof.
  induction a as [|c a IH]; simpl; intros Hn; auto.
  apply nospace_cons in Hn as [Hc Hn].
  apply Ascii.eqb_neq in Hc. rewrite Hc, IH; auto.
Qed.

Lemma split_space_cons_inv (s p : string) (ps : list string) :
  JS.split_space s = p :: ps ->
  nospace p /\
  ((ps = [] /\ s = p) \/
   (exists rest, s = (p ++ String " " rest)%string /\ JS.split_space rest = ps)).
Proof.
  revert p ps. induction s as [|c s IH]; simpl; intros p ps E.
  - injection E as <- <-. split; [intros []|auto].
  - destruct (Ascii.eqb c " ") eqn:Ec.
    + apply Ascii.eqb_eq in Ec. subst c. injection E as <- <-.
      split; [intros []|]. right. exists s. auto.
    + apply Ascii.eqb_neq in Ec.
      destruct (JS.split_space s) as [|q qs] eqn:Es.
      * exfalso. eapply split_space_nonempty; eauto.
      * injection E as <- <-.
        destruct (IH q qs eq_refl) as [Hq Hrest].
        split; [apply nospace_cons; auto|].
        destruct Hrest as [[-> ->]|[rest [-> Hr]]]; auto.
        right. exists rest. auto.
Qed.

(** The split test of both gates accepts exactly the headers of the form
    [Bearer <token>]. *)
Lemma split_space_bearer (h token : string) :
  JS.split_space h = ["Bearer"%string; token] <-> bearer_header h token.
Proof.
  unfold bearer_header. split.
  - intros E. apply split_space_cons_inv in E as [_ [[E _]|[rest [-> E]]]];
      [discriminate|].
    apply split_space_cons_inv in E as [Hn [[_ ->]|[rest' [_ E]]]]; auto.
    exfalso. eapply split_space_nonempty; eauto.
  - intros [-> Hn].
    change ("Bearer " ++ token)%string with ("Bearer" ++ String " " token)%string.
    rewrite split_space_app, split_space_plain; auto.
    unfold nospace. simpl. intuition discriminate.
Qed.

Lemma bad_format_false (parts : list string) :
  Middleware.bad_format parts = false <->
  exists token, parts = ["Bearer"%string; token].
Proof.
  unfold Middleware.bad_format. split.
  - intros E. apply orb_false_iff in E as [E1 E2].
    apply negb_false_iff in E1, E2.
    apply Nat.eqb_eq in E1. apply String.eqb_eq in E2.
    destruct parts as [|a [|b [|c parts]]]; simpl in *; try discriminate.
    subst. eauto.
  - intros [token ->]. reflexivity.
Qed.

Lemma bearer_header_not_missing (h token : string) :
  bearer_header h token -> Middleware.missing (Some h) = false.
Proof. intros [-> _]. reflexivity. Qed.

Lemma bearer_header_parts (h token : string) :
  bearer_header h token ->
  Middleware.missing (Some h) = false
  /\ Middleware.bad_format (JS.split_space h) = false
  /\ nth 1 (JS.split_space h) ""%string = token.
Proof.
  intros Hb. pose proof (bearer_header_not_missing _ _ Hb).
  apply split_space_bearer in Hb. rewrite Hb. auto.
Qed.

Lemma not_bearer_bad_format (h : string) :
  (forall token, ~ bearer_header h token) ->
  Middleware.missing (Some h) = true \/ Middleware.bad_format (JS.split_space h) = true.
Proof.
  intros Hno. right.
  destruct (Middleware.bad_format (JS.split_space h)) eqn:E; auto.
  apply bad_format_false in E as [token E].
  apply split_space_bearer in E. exfalso. eapply Hno; eauto.
Qed.

(* ------------------------------------------------------------------ *)
(** ** AuthGate: createApiKeyAuth *)

Section AuthGate.
Context `{Host}.

Lemma tagged_not_empty (token : string) :
  JS.startsWith token "sk-" = true ->
  ((token =? "")%string || negb (JS.startsWith token "sk-")) = false.
Proof.
  intros Hp. rewrite Hp. destruct token; [discriminate|reflexivity].
Qed.

Lemma untagged_rejected (token : string) :
  JS.startsWith token "sk-" = false ->
  ((token =? "")%string || negb (JS.startsWith token "sk-")) = true.
Proof. intros ->. apply orb_true_r. Qed.

(** C6. For every request, [createApiKeyAuth] answers 401 when the
    Authorization header is missing, when it is not exactly
    [Bearer <token>], and when the token lacks the [sk-] tag; in these
    cases, the last included, it makes no [store.validate] call and leaves
    the table alone.  A tagged token is looked up: when [validate] returns
    absent the answer is 401 as well, and when it returns a record the
    middleware stores that record in [req.apiKey] and calls [next()]. *)
Theorem apiKeyAuth_decisions (k : ApiKeyStore.Tick) (hdr : option string) (t : Table) :
  let run := Middleware.createApiKeyAuth k hdr t in
  (hdr = None ->
     rejected_with 401 run /\ Middleware.validated run = []
     /\ Middleware.table_after run = t)
  /\ (forall h, hdr = Some h -> (forall token, ~ bearer_header h token) ->
        rejected_with 401 run /\ Middleware.validated run = []
        /\ Middleware.table_after run = t)
  /\ (forall h token, hdr = Some h -> bearer_header h token ->
        JS.startsWith token "sk-" = false ->
        rejected_with 401 run /\ Middleware.validated run = []
        /\ Middleware.table_after run = t)
  /\ (forall h token, hdr = Some h -> bearer_header h token ->
        JS.startsWith token "sk-" = true ->
        fst (ApiKeyStore.validate k token t) = None ->
        rejected_with 401 run /\ Middleware.validated run = [token])
  /\ (forall h token record, hdr = Some h -> bearer_header h token ->
        JS.startsWith token "sk-" = true ->
        fst (ApiKeyStore.validate k token t) = Some record ->
        Middleware.outcome run = Middleware.Next (Some record)
        /\ Middleware.validated run = [token]
        /\ Middleware.table_after run = snd (ApiKeyStore.validate k token t)).
Proof.
  unfold rejected_with. cbv zeta. repeat apply conj.
  - intros ->. simpl. eauto.
  - intros h -> Hno. unfold Middleware.createApiKeyAuth.
    destruct (Middleware.missing (Some h)) eqn:Em; [simpl; eauto|].
    destruct (not_bearer_bad_format h Hno) as [E|E]; [congruence|].
    simpl Middleware.header_text. rewrite E. simpl. eauto.
  - intros h token -> Hb Hp. unfold Middleware.createApiKeyAuth.
    destruct (bearer_header_parts h token Hb) as (-> & E2 & E3).
    simpl Middleware.header_text. rewrite E2, E3, (untagged_rejected token Hp).
    simpl. eauto.
  - intros h token -> Hb Hp Hv. unfold Middleware.createApiKeyAuth.
    destruct (bearer_header_parts h token Hb) as (-> & E2 & E3).
    simpl Middleware.header_text. rewrite E2, E3, (tagged_not_empty token Hp).
    destruct (ApiKeyStore.validate k token t) as [[r|] t']; simpl in *;
      [discriminate|eauto].
  - intros h token record -> Hb Hp Hv. unfold Middleware.createApiKeyAuth.
    destruct (bearer_header_parts h token Hb) as (-> & E2 & E3).
    simpl Middleware.header_text. rewrite E2, E3, (tagged_not_empty token Hp).
    destruct (ApiKeyStore.validate k token t) as [[r|] t']; simpl in *;
      [|discriminate].
    injection Hv as ->. auto.
Qed.

End AuthGate.

(* ------------------------------------------------------------------ *)
(** ** AdminGate: createAdminAuth *)

Lemma is_admin_key_iff (adminKey : option string) (token : string) :
  Middleware.is_admin_key adminKey token = true <-> root_secret adminKey token.
Proof.
  unfold Middleware.is_admin_key, root_secret. split.
  - destruct adminKey as [a|]; [|discriminate].
    intros E. apply andb_true_iff in E as [E1 E2].
    apply negb_true_iff, String.eqb_neq in E1. apply String.eqb_eq in E2.
    exists a. auto.
  - intros [a (-> & Hne & ->)].
    apply andb_true_iff. split.
    + now apply negb_true_iff, String.eqb_neq.
    + apply String.eqb_refl.
Qed.





Lemma generateKey_tagged (f : ApiKeyStore.Fresh) :
  JS.startsWith (ApiKeyStore.generateKey f) "sk-" = true.
Proof.
  unfold ApiKeyStore.generateKey, JS.startsWith. simpl.
  destruct (ApiKeyStore.random_hex f); reflexivity.
Qed.

Section AdminGate.
Context `{Host}.

Lemma adminAuth_bearer (adminKey : option string) (k : ApiKeyStore.Tick)
      (h token : string) (t : Table) :
  bearer_header h token ->
  Middleware.createAdminAuth adminKey k (Some h) t = admin_decision adminKey k token t.
Proof.
  intros Hb. unfold Middleware.createAdminAuth, admin_decision.
  destruct (bearer_header_parts h token Hb) as (-> & E2 & E3).
  simpl Middleware.header_text. rewrite E2, E3. reflexivity.
Qed.

Lemma adminAuth_needs_bearer (adminKey : option string) (k : ApiKeyStore.Tick)
      (hdr : option string) (t : Table) :
  authorized (Middleware.createAdminAuth adminKey k hdr t) ->
  exists h token, hdr = Some h /\ bearer_header h token.
Proof.
  unfold authorized, Middleware.createAdminAuth. intros [a Ha].
  destruct (Middleware.missing hdr) eqn:Em; [discriminate|].
  destruct (Middleware.bad_format _) eqn:Eb; [discriminate|].
  destruct hdr as [h|]; [|discriminate].
  apply bad_format_false in Eb as [token Eb].
  apply split_space_bearer in Eb. eauto.
Qed.


Lemma validate_matches_digest (k : ApiKeyStore.Tick) (token : string) (t : Table)
      (r : ApiKeyRecord) :
  fst (ApiKeyStore.validate k token t) = Some r ->
  In r t /\ keyHash r = hashKey token.
Proof.
  rewrite validate_result.
  destruct (Sql.findByHash (hashKey token) t) as [x|] eqn:E; [|discriminate].
  destruct (ApiKeyStore.expired _ x); [discriminate|].
  intros [= ->]. apply findByHash_Some in E. tauto.
Qed.



(** Tables built by [create] hold digests of tagged keys only. *)
Lemma step_issued (o : Op) (t : Table) : issued t -> issued (step o t).
Proof.
  unfold issued. intros Hi.
  assert (forall g i, (forall r, keyHash (g r) = keyHash r) ->
            Forall (fun r => exists k0, JS.startsWith k0 "sk-" = true
                                        /\ keyHash r = hashKey k0)
                   (fst (Sql.update_where_id g i t))) as Hupd.
  { intros g i Hg. apply update_Forall; auto. intros r. now rewrite Hg. }
  destruct o; unfold step; auto.
  - destruct (ApiKeyStore.create f input t) as [[res t']|] eqn:E; auto.
    apply create_inserts in E as (-> & _ & Hrec & _).
    apply Forall_app. split; auto. constructor; [|constructor].
    exists (ApiKeyStore.generateKey f). rewrite Hrec. simpl.
    split; [apply generateKey_tagged | reflexivity].
  - destruct (validate_table k key t) as [->|[r ->]]; auto.
    apply Hupd. reflexivity.
  - rewrite revoke_table. apply Hupd. reflexivity.
  - rewrite delete_table. unfold Sql.deleteKey. simpl.
    apply Forall_forall. intros r Hin. apply filter_In in Hin as [Hin _].
    rewrite Forall_forall in Hi. auto.
  - rewrite updateName_table. apply Hupd. reflexivity.
Qed.

Lemma reachable_issued (t : Table) : reachable t -> issued t.
Proof.
  intros [ops <-]. unfold run.
  assert (forall t0, issued t0 -> issued (fold_left (fun acc o => step o acc) ops t0)) as Hrun.
  { induction ops as [|o ops IH]; simpl; auto using step_issued. }
  apply Hrun. constructor.
Qed.

Lemma issued_tagged (t : Table) : collision_free -> issued t -> tagged_store t.
Proof.
  intros Hcf Hi k r Hin Hh. unfold issued in Hi. rewrite Forall_forall in Hi.
  destruct (Hi r Hin) as [k0 [Hp Hk0]].
  assert (k = k0) as -> by (apply Hcf; congruence). auto.
Qed.

Lemma reachable_tagged (t : Table) : collision_free -> reachable t -> tagged_store t.
Proof. intros Hcf Hr. apply issued_tagged; auto. now apply reachable_issued. Qed.

End AdminGate.

(* ------------------------------------------------------------------ *)
(** ** Sanitized views: GET / and GET /:keyId *)

Lemma sanitize_erase (r : ApiKeyRecord) :
  Routes.sanitize (erase_digest r) = Routes.sanitize r.
Proof. reflexivity. Qed.

Lemma place_erase (r : ApiKeyRecord) (l : list ApiKeyRecord) :
  map erase_digest (Sql.place r l) = Sql.place (erase_digest r) (map erase_digest l).
Proof.
  induction l as [|x l IH]; simpl; auto.
  destruct (createdAt x <=? createdAt r); simpl; auto. now rewrite IH.
Qed.

Lemma order_erase (l : list ApiKeyRecord) :
  map erase_digest (Sql.order_by_created_desc l)
  = Sql.order_by_created_desc (map erase_digest l).
Proof.
  induction l as [|x l IH]; simpl; auto.
  now rewrite place_erase, IH.
Qed.

Lemma active_erase (l : list ApiKeyRecord) :
  map erase_digest (filter Sql.active l) = filter Sql.active (map erase_digest l).
Proof.
  induction l as [|x l IH]; simpl; auto.
  replace (Sql.active (erase_digest x)) with (Sql.active x) by reflexivity.
  destruct (Sql.active x); simpl; now rewrite IH.
Qed.

Lemma list_erase (b : bool) (t : Table) :
  map erase_digest (ApiKeyStore.list b t) = ApiKeyStore.list b (map erase_digest t).
Proof.
  destruct b; simpl; unfold Sql.listAll, Sql.listActive.
  - apply order_erase.
  - now rewrite order_erase, active_erase.
Qed.

Lemma getById_erase (i : string) (t : Table) :
  option_map erase_digest (ApiKeyStore.getById i t)
  = ApiKeyStore.getById i (map erase_digest t).
Proof.
  unfold ApiKeyStore.getById, Sql.findById.
  induction t as [|x t IH]; simpl; auto.
  replace (Sql.has_id i (erase_digest x)) with (Sql.has_id i x) by reflexivity.
  destruct (Sql.has_id i x); auto.
Qed.

Lemma get_all_erase (q : option string) (t : Table) :
  Routes.get_all q t = Routes.get_all q (map erase_digest t).
Proof.
  unfold Routes.get_all. do 2 f_equal.
  rewrite <- list_erase, map_map. apply map_ext. intros r. now rewrite sanitize_erase.
Qed.

Lemma get_one_erase (i : string) (t : Table) :
  Routes.get_one i t = Routes.get_one i (map erase_digest t).
Proof.
  unfold Routes.get_one. rewrite <- getById_erase.
  destruct (ApiKeyStore.getById i t); reflexivity.
Qed.

(** C5. The responses of GET /keys and GET /keys/:id carry neither the
    digest nor the plaintext secret: the sanitized record has no such field,
    and for any two tables that differ only in the digest column both
    endpoints answer identically, whatever the query flag and the id. *)
Theorem sanitized_views_hide_digest (t1 t2 : Table) :
  same_but_digest t1 t2 ->
  (forall q, Routes.get_all q t1 = Routes.get_all q t2)
  /\ (forall keyId, Routes.get_one keyId t1 = Routes.get_one keyId t2).
Proof.
  unfold same_but_digest. intros E. split.
  - intros q. now rewrite (get_all_erase q t1), (get_all_erase q t2), E.
  - intros i. now rewrite (get_one_erase i t1), (get_one_erase i t2), E.
Qed.

(* ------------------------------------------------------------------ *)
(** ** POST /: validation and creation *)

(** [(v || null) || null] is [v || null]. *)
Lemma or_else_null_twice (v : JS.value) :
  JS.or_else (JS.or_else v JS.Null) JS.Null = JS.or_else v JS.Null.
Proof.
  unfold JS.or_else. destruct (JS.truthy v) eqn:E; [now rewrite E | reflexivity].
Qed.

Section Post.
Context `{Host} `{Engine}.

Variable f : ApiKeyStore.Fresh.
Variable now : Z.
Variable body : Routes.Body.
Variable t : Table.

(** What a returning [create] has done. *)
Lemma create_untyped_returned (input : ApiKeyStore.UntypedInput) (key : string)
      (row : ApiKeyRecord) (raw : JS.value) (t' : Table) :
  ApiKeyStore.create_untyped f input t = ApiKeyStore.Returned key row raw t' ->
  key = ApiKeyStore.generateKey f
  /\ raw = JS.or_else (ApiKeyStore.un_expiresAt input) JS.Null
  /\ Sql.bind_expires_at raw = Sql.Stored (expiresAt row)
  /\ row = mkRecord (ApiKeyStore.uuid f) (ApiKeyStore.un_name input)
                    (substring 0 10 (ApiKeyStore.generateKey f) ++ "...")%string
                    (hashKey (ApiKeyStore.generateKey f))
                    (ApiKeyStore.permissions_or_default (ApiKeyStore.un_permissions input))
                    (ApiKeyStore.created_now f) None (expiresAt row) false
  /\ t' = t ++ [row]
  /\ ~ In (ApiKeyStore.uuid f) (map id t)
  /\ ~ In (hashKey (ApiKeyStore.generateKey f)) (map keyHash t).
Proof.
  unfold ApiKeyStore.create_untyped. cbv zeta.
  destruct (Sql.bind_expires_at _) as [|e|] eqn:Eb; try discriminate.
  match goal with |- context [Sql.insert ?r t] => destruct (Sql.insert r t) eqn:Ei end;
    [|discriminate].
  intros [= <- <- <- <-]. simpl.
  apply insert_spec in Ei as (-> & Hid & Hh). simpl in *. auto 10.
Qed.

(** The store call behind a 201. *)
Lemma post_created (c : Routes.CreatedKey) (status : Z) (t' : Table) :
  Routes.post f now body t = Some (Routes.successResponse (Routes.Created c) status, t') ->
  exists key row raw,
    Routes.name_missing (Routes.b_name body) = false
    /\ (100 <? JS.length (Routes.str_of (Routes.b_name body))) = false
    /\ Routes.permissions_rejected (Routes.b_permissions body) = false
    /\ Routes.expiresAt_rejected now (Routes.b_expiresAt body) = false
    /\ ApiKeyStore.create_untyped f (Routes.store_input body) t
       = ApiKeyStore.Returned key row raw t'
    /\ c = Routes.mkCreated key (id row) (name row) (prefix row) (permissions row)
                            (createdAt row) raw
    /\ status = 201.
Proof.
  unfold Routes.post. cbv zeta.
  destruct (Routes.name_missing _) eqn:E1; [discriminate|].
  destruct (100 <? _) eqn:E2; [discriminate|].
  destruct (Routes.permissions_rejected _) eqn:E3; [discriminate|].
  destruct (Routes.expiresAt_rejected now _) eqn:E4; [discriminate|].
  destruct (ApiKeyStore.create_untyped f _ t) as [key row raw t1| |] eqn:E5;
    try discriminate.
  intros [= <- <- <-]. exists key, row, raw. auto 10.
Qed.

(** The permissions the handler passes on: the array of the body when the
    field is truthy, the default otherwise. *)
Lemma post_permissions_input :
  Routes.permissions_rejected (Routes.b_permissions body) = false ->
  Routes.as_array (JS.or_else (Routes.b_permissions body) (JS.Arr [JS.Str "*"]))
  = Some (match Routes.b_permissions body with
          | JS.Arr l => l
          | _ => [JS.Str "*"]
          end).
Proof.
  unfold Routes.permissions_rejected, JS.or_else.
  destruct (Routes.b_permissions body) as [| |b|z|s|l|o]; simpl; auto.
  - destruct b; simpl; [discriminate|auto].
  - destruct (z =? 0); simpl; [auto|discriminate].
  - destruct (s =? "")%string; simpl; [auto|discriminate].
  - discriminate.
Qed.

(** C9, as the code has it.  For every request that passes the permissions
    check, whatever its other fields, the permissions [store.create] writes
    are the array of the request when one was supplied and [["*"]] when the
    field was omitted (or falsy), and a [create] that returns has inserted
    one row with exactly these permissions.  So an accepted create persists
    one record whose permissions are the supplied array, or [["*"]] when the
    field was omitted; they are empty exactly when the request supplied the
    empty array, and non-empty in every other accepted call. *)
Theorem post_stores_supplied_permissions :
  (Routes.permissions_rejected (Routes.b_permissions body) = false ->
   ApiKeyStore.permissions_or_default
     (ApiKeyStore.un_permissions (Routes.store_input body))
   = match Routes.b_permissions body with
     | JS.Arr l => l
     | _ => [JS.Str "*"]
     end)
  /\ (forall key row raw t',
        ApiKeyStore.create_untyped f (Routes.store_input body) t
        = ApiKeyStore.Returned key row raw t' ->
        t' = t ++ [row]
        /\ permissions row
           = ApiKeyStore.permissions_or_default
               (ApiKeyStore.un_permissions (Routes.store_input body)))
  /\ (forall c status t',
        Routes.post f now body t
        = Some (Routes.successResponse (Routes.Created c) status, t') ->
        exists r,
          t' = t ++ [r]
          /\ permissions r = Routes.c_permissions c
          /\ permissions r = match Routes.b_permissions body with
                             | JS.Arr l => l
                             | _ => [JS.Str "*"]
                             end
          /\ (Routes.b_permissions body = JS.Undefined -> permissions r = [JS.Str "*"])
          /\ (permissions r = [] <-> Routes.b_permissions body = JS.Arr [])).
Proof.
  assert (Routes.permissions_rejected (Routes.b_permissions body) = false ->
          ApiKeyStore.permissions_or_default
            (ApiKeyStore.un_permissions (Routes.store_input body))
          = match Routes.b_permissions body with
            | JS.Arr l => l
            | _ => [JS.Str "*"]
            end) as Hinput.
  { intros Hp. unfold Routes.store_input. simpl.
    now rewrite (post_permissions_input Hp). }
  assert (forall key row raw t',
             ApiKeyStore.create_untyped f (Routes.store_input body) t
             = ApiKeyStore.Returned key row raw t' ->
             t' = t ++ [row]
             /\ permissions row
                = ApiKeyStore.permissions_or_default
                    (ApiKeyStore.un_permissions (Routes.store_input body))) as Hrow.
  { intros key row raw t' E.
    apply create_untyped_returned in E as (_ & _ & _ & Hr & -> & _).
    split; [reflexivity|]. rewrite Hr. reflexivity. }
  split; [exact Hinput|]. split; [exact Hrow|].
  intros c status t' Hpost.
  apply post_created in Hpost as (key & row & raw & _ & _ & Hp & _ & Hc & -> & _).
  destruct (Hrow _ _ _ _ Hc) as [-> Hperm].
  exists row. rewrite Hperm, (Hinput Hp). simpl.
  repeat split; auto.
  - intros ->. reflexivity.
  - destruct (Routes.b_permissions body); try discriminate. now intros ->.
  - intros ->. reflexivity.
Qed.

(** Parts of C4 the handler does implement. *)

Lemma post_rejects_name :
  (forall s, Routes.b_name body = JS.Str s -> s = ""%string \/ 100 < JS.length s) ->
  exists message,
    Routes.post f now body t
    = Some (Routes.errorResponse VALIDATION_ERROR message 400, t).
Proof.
  intros Hname. unfold Routes.post. cbv zeta.
  destruct (Routes.name_missing _) eqn:E1; eauto.
  destruct (100 <? _) eqn:E2; eauto.
  exfalso. unfold Routes.name_missing in E1.
  destruct (Routes.b_name body) as [| |b|z|s|l|o]; simpl in E1;
    try rewrite orb_true_r in E1; try discriminate.
  destruct (Hname s eq_refl) as [->|Hlong]; [discriminate|].
  simpl in E2. apply Z.ltb_ge in E2. lia.
Qed.

Lemma post_rejects_truthy_non_array :
  JS.truthy (Routes.b_permissions body) = true ->
  JS.isArray (Routes.b_permissions body) = false ->
  exists message,
    Routes.post f now body t
    = Some (Routes.errorResponse VALIDATION_ERROR message 400, t).
Proof.
  intros Ht Ha. unfold Routes.post. cbv zeta.
  destruct (Routes.name_missing _); eauto.
  destruct (100 <? _); eauto.
  unfold Routes.permissions_rejected. rewrite Ht, Ha. simpl. eauto.
Qed.

Lemma post_rejects_expiresAt :
  Routes.b_expiresAt body <> JS.Undefined ->
  Routes.b_expiresAt body <> JS.Null ->
  (forall z, Number (Routes.b_expiresAt body) = Some z -> z <= now) ->
  exists message,
    Routes.post f now body t
    = Some (Routes.errorResponse VALIDATION_ERROR message 400, t).
Proof.
  intros Hu Hn Hpast. unfold Routes.post. cbv zeta.
  destruct (Routes.name_missing _); eauto.
  destruct (100 <? _); eauto.
  destruct (Routes.permissions_rejected _); eauto.
  assert (Routes.expiresAt_rejected now (Routes.b_expiresAt body) = true) as ->; eauto.
  unfold Routes.expiresAt_rejected.
  destruct (Number (Routes.b_expiresAt body)) as [z|] eqn:En.
  - specialize (Hpast z eq_refl). apply Z.leb_le in Hpast. rewrite Hpast.
    destruct (Routes.b_expiresAt body); auto; congruence.
  - destruct (Routes.b_expiresAt body); auto; congruence.
Qed.

(** A falsy [permissions] is handled exactly as an omitted one. *)
Lemma post_falsy_as_omitted :
  JS.truthy (Routes.b_permissions body) = false ->
  Routes.post f now body t
  = Routes.post f now
      (Routes.mkBody (Routes.b_name body) JS.Undefined (Routes.b_expiresAt body)) t.
Proof.
  intros Hf. unfold Routes.post, Routes.store_input, Routes.permissions_rejected,
    JS.or_else. cbv zeta. simpl. now rewrite Hf.
Qed.

(** Falsy values in [permissions] pass the array test and are replaced by
    the default. *)
Lemma falsy_permissions_pass :
  JS.truthy (Routes.b_permissions body) = false ->
  Routes.permissions_rejected (Routes.b_permissions body) = false
  /\ JS.or_else (Routes.b_permissions body) (JS.Arr [JS.Str "*"]) = JS.Arr [JS.Str "*"].
Proof.
  intros Hf. unfold Routes.permissions_rejected, JS.or_else. now rewrite Hf.
Qed.

(** With a well-formed name, permissions omitted (or any other falsy value)
    or an array, an [expiresAt] that passes the check and that the column
    stores as NULL or an integer, and fresh entropy, the handler appends
    exactly one row and answers 201 with the generated key and the
    [expiresAt] of the request. *)
Lemma post_valid_creates (s : string) (e : option Z) :
  Routes.b_name body = JS.Str s ->
  JS.trim s <> ""%string -> JS.length s <= 100 ->
  (JS.truthy (Routes.b_permissions body) = false
   \/ JS.isArray (Routes.b_permissions body) = true) ->
  Routes.expiresAt_rejected now (Routes.b_expiresAt body) = false ->
  Sql.bind_expires_at (JS.or_else (Routes.b_expiresAt body) JS.Null) = Sql.Stored e ->
  ~ In (ApiKeyStore.uuid f) (map id t) ->
  ~ In (hashKey (ApiKeyStore.generateKey f)) (map keyHash t) ->
  exists c r,
    Routes.post f now body t
    = Some (Routes.successResponse (Routes.Created c) 201, t ++ [r])
    /\ Routes.c_key c = ApiKeyStore.generateKey f
    /\ Routes.c_expiresAt c = JS.or_else (Routes.b_expiresAt body) JS.Null
    /\ keyHash r = hashKey (ApiKeyStore.generateKey f)
    /\ name r = JS.trim s /\ expiresAt r = e
    /\ revoked r = false /\ lastUsedAt r = None.
Proof.
  intros Hname Htrim Hlen Hperm Hexp Hbind Hid Hh.
  unfold Routes.post. cbv zeta. rewrite Hname.
  assert (Routes.name_missing (JS.Str s) = false) as ->.
  { unfold Routes.name_missing. simpl.
    destruct s as [|ch s']; [exfalso; now apply Htrim|]. simpl.
    destruct (JS.trim (String ch s')) eqn:Et; [congruence|reflexivity]. }
  assert ((100 <? JS.length (Routes.str_of (JS.Str s))) = false) as ->.
  { simpl. apply Z.ltb_ge. lia. }
  assert (Routes.permissions_rejected (Routes.b_permissions body) = false) as ->.
  { unfold Routes.permissions_rejected.
    destruct Hperm as [-> | ->]; [reflexivity|]. apply andb_false_r. }
  rewrite Hexp.
  unfold ApiKeyStore.create_untyped, Routes.store_input. cbv zeta.
  cbn [ApiKeyStore.un_expiresAt ApiKeyStore.un_name ApiKeyStore.un_permissions].
  rewrite or_else_null_twice, Hbind, insert_fresh by (simpl; auto).
  do 2 eexists. split; [reflexivity|]. rewrite Hname. simpl. auto 10.
Qed.

(** The handler lets through a numeric [expiresAt] after [now]; the column
    then holds that number. *)
Lemma numeric_expiresAt_stored (z : Z) :
  now < z ->
  Routes.expiresAt_rejected now (JS.Num z) = false
  /\ Sql.bind_expires_at (JS.or_else (JS.Num z) JS.Null)
     = Sql.Stored (if z =? 0 then None else Some z).
Proof.
  intros Hz. split.
  - simpl. apply Z.leb_gt. lia.
  - unfold JS.or_else. simpl. destruct (z =? 0); reflexivity.
Qed.

(** A one-element array is spread into the placeholder: the column holds
    its number, and the response still carries the array. *)
Lemma array_expiresAt_stored (z : Z) :
  Sql.bind_expires_at (JS.or_else (JS.Arr [JS.Num z]) JS.Null) = Sql.Stored (Some z).
Proof. reflexivity. Qed.

(** On an input that keeps to [CreateApiKeyInput] the two readings of
    [create] are the same run. *)
Lemma create_untyped_typed (input : ApiKeyStore.CreateApiKeyInput) :
  ApiKeyStore.create_untyped f
    (ApiKeyStore.mkUntyped (ApiKeyStore.in_name input) (ApiKeyStore.in_permissions input)
       (match ApiKeyStore.in_expiresAt input with
        | Some z => JS.Num z
        | None => JS.Null
        end)) t
  = match ApiKeyStore.create f input t with
    | Some (res, t') =>
        ApiKeyStore.Returned (ApiKeyStore.key res) (ApiKeyStore.record res)
          (match expiresAt (ApiKeyStore.record res) with
           | Some z => JS.Num z
           | None => JS.Null
           end) t'
    | None => ApiKeyStore.Threw
    end.
Proof.
  unfold ApiKeyStore.create_untyped, ApiKeyStore.create, ApiKeyStore.expiresAt_or_null.
  cbv zeta. cbn [ApiKeyStore.un_expiresAt ApiKeyStore.un_name ApiKeyStore.un_permissions].
  destruct (ApiKeyStore.in_expiresAt input) as [z|]; unfold JS.or_else; simpl.
  - destruct (z =? 0); simpl;
      match goal with |- context [Sql.insert ?r t] => destruct (Sql.insert r t) end;
      reflexivity.
  - match goal with |- context [Sql.insert ?r t] => destruct (Sql.insert r t) end;
      reflexivity.
Qed.

End Post.

(** C4 at a failing request: [permissions: false] is present and is not an
    array, yet the handler answers 201 and stores a key with the wildcard
    permission. *)
Theorem post_accepts_false_permissions :
  @Routes.post Sample.host Sample.engine Sample.fresh1 500
               (Routes.mkBody (JS.Str "CI Bot") (JS.Bool false) JS.Undefined) []
  = Some
      (Routes.successResponse
         (Routes.Created
            (Routes.mkCreated "sk-00aa" "id-1" "CI Bot" "sk-00aa..." [JS.Str "*"] 1000
                              JS.Null))
         201,
       [Sample.row1]).
Proof. reflexivity. Qed.

(** C9 fails as stated: a create request with [permissions: []] is accepted
    and persists a record whose permissions are empty. *)
Lemma post_persists_empty_permissions :
  exists c r,
    @Routes.post Sample.host Sample.engine Sample.fresh1 500
                 (Routes.mkBody (JS.Str "CI Bot") (JS.Arr []) JS.Undefined) []
    = Some (Routes.successResponse (Routes.Created c) 201, [r])
    /\ permissions r = [].
Proof. do 2 eexists. split; reflexivity. Qed.

(* ------------------------------------------------------------------ *)
(** ** The model on the sample data *)

(** Create "CI Bot" with default permissions, read it back, validate it. *)
Example scenario_ci_bot :
  @Routes.post Sample.host Sample.engine Sample.fresh1 500 Sample.body_default []
  = Some
      (Routes.successResponse
         (Routes.Created
            (Routes.mkCreated "sk-00aa" "id-1" "CI Bot" "sk-00aa..." [JS.Str "*"] 1000
                              JS.Null))
         201,
       [Sample.row1])
  /\ Routes.get_one "id-1" [Sample.row1]
     = Routes.successResponse
         (Routes.KeyDetail
            (Routes.mkSanitized "id-1" "CI Bot" "sk-00aa..." [JS.Str "*"] 1000 None None false))
         200
  /\ @ApiKeyStore.validate Sample.host Sample.tick "sk-00aa" [Sample.row1]
     = (Some Sample.row1, [set_lastUsedAt 3001 Sample.row1]).
Proof. repeat split. Qed.

(** An [expiresAt] that is not a number: a one-element array and a decimal
    text are stored as the integer while the 201 response returns the value
    of the request; a hexadecimal text passes the check but stays a text in
    the column, where the table model stops; a boolean passes the check only
    before 1970 and then makes the insert throw. *)
Example scenario_untyped_expiresAt :
  @Routes.post Sample.host_lenient Sample.engine_decimal Sample.fresh1 500
     (Routes.mkBody (JS.Str "CI Bot") JS.Undefined (JS.Arr [JS.Num 9999])) []
  = Some
      (Routes.successResponse
         (Routes.Created
            (Routes.mkCreated "sk-00aa" "id-1" "CI Bot" "sk-00aa..." [JS.Str "*"] 1000
                              (JS.Arr [JS.Num 9999])))
         201,
       [Sample.row1_expiring])
  /\ @Routes.post Sample.host_lenient Sample.engine_decimal Sample.fresh1 500
       (Routes.mkBody (JS.Str "CI Bot") JS.Undefined (JS.Str "9999")) []
     = Some
         (Routes.successResponse
            (Routes.Created
               (Routes.mkCreated "sk-00aa" "id-1" "CI Bot" "sk-00aa..." [JS.Str "*"] 1000
                                 (JS.Str "9999")))
            201,
          [Sample.row1_expiring])
  /\ Routes.get_one "id-1" [Sample.row1_expiring]
     = Routes.successResponse
         (Routes.KeyDetail
            (Routes.mkSanitized "id-1" "CI Bot" "sk-00aa..." [JS.Str "*"] 1000 None
                                (Some 9999) false))
         200
  /\ @Routes.post Sample.host_lenient Sample.engine_decimal Sample.fresh1 500
       (Routes.mkBody (JS.Str "CI Bot") JS.Undefined (JS.Str "0x270f")) []
     = None
  /\ @Routes.post Sample.host_lenient Sample.engine_decimal Sample.fresh1 (-5)
       (Routes.mkBody (JS.Str "CI Bot") JS.Undefined (JS.Bool true)) []
     = Some (Routes.errorResponse INTERNAL_ERROR "Failed to create API key" 500, []).
Proof. repeat split. Qed.

(** A second key is listed before the first, and a revoked key only with
    [includeRevoked]. *)
Example scenario_two_keys :
  (exists res,
      @ApiKeyStore.create Sample.host Sample.fresh2
        (ApiKeyStore.mkInput "Reader" (Some [JS.Str "read"]) (Some 5000)) [Sample.row1]
      = Some (res, Sample.table))
  /\ ApiKeyStore.list false Sample.table = [Sample.row2; Sample.row1]
  /\ ApiKeyStore.revoke "id-1" Sample.table = (true, Sample.table_revoked)
  /\ ApiKeyStore.list false Sample.table_revoked = [Sample.row2]
  /\ ApiKeyStore.list true Sample.table_revoked = [Sample.row2; set_revoked Sample.row1]
  /\ fst (@ApiKeyStore.validate Sample.host Sample.tick "sk-00aa" Sample.table_revoked) = None
  /\ fst (@ApiKeyStore.validate Sample.host (ApiKeyStore.mkTick 6000 6001 false)
                                "sk-11bb" Sample.table) = None.
Proof. split; [eexists; reflexivity | repeat split]. Qed.

(** The gates on the sample table. *)
Example scenario_gates :
  Middleware.outcome
    (@Middleware.createAdminAuth Sample.host (Some "root-secret"%string) Sample.tick
       (Some "Bearer root-secret"%string) Sample.table)
  = Middleware.Next None
  /\ Middleware.outcome
       (@Middleware.createAdminAuth Sample.host (Some "root-secret"%string) Sample.tick
          (Some "Bearer sk-00aa"%string) Sample.table)
     = Middleware.Next (Some Sample.row1)
  /\ Middleware.outcome
       (@Middleware.createAdminAuth Sample.host (Some "root-secret"%string) Sample.tick
          (Some "Bearer sk-11bb"%string) Sample.table)
     = Middleware.Rejected 403 UNAUTHORIZED "Invalid admin credentials"
  /\ Middleware.outcome
       (@Middleware.createApiKeyAuth Sample.host Sample.tick
          (Some "Bearer sk-11bb"%string) Sample.table)
     = Middleware.Next (Some Sample.row2)
  /\ Middleware.outcome
       (@Middleware.createApiKeyAuth Sample.host Sample.tick
          (Some "Basic sk-11bb"%string) Sample.table)
     = Middleware.Rejected 401 UNAUTHORIZED
         "Invalid Authorization format. Expected: Bearer <api-key>".
Proof. repeat split. Qed.

(* ------------------------------------------------------------------ *)
(** ** The theorems at the sample data *)

Ltac schema_by_computation :=
  split;
  [ repeat constructor; simpl; intuition discriminate
  | repeat constructor; simpl; intuition discriminate
  | repeat constructor; discriminate ].

Lemma validate_iff_live_row_witness :
  well_formed Sample.table
  /\ ((forall r,
         fst (@ApiKeyStore.validate Sample.host Sample.tick "sk-00aa" Sample.table) = Some r <->
         In r Sample.table /\ live_match 3000 "sha256:sk-00aa" r)
      /\ (fst (@ApiKeyStore.validate Sample.host Sample.tick "sk-00aa" Sample.table) = None <->
          ~ exists r, In r Sample.table /\ live_match 3000 "sha256:sk-00aa" r)).
Proof.
  split.
  - schema_by_computation.
  - apply (@validate_iff_live_row Sample.host Sample.tick "sk-00aa" Sample.table).
    schema_by_computation.
Defined.

Lemma validate_frame_witness :
  well_formed Sample.table
  /\ snd (@ApiKeyStore.validate Sample.host (ApiKeyStore.mkTick 3000 3001 true)
                                "sk-00aa" Sample.table) = Sample.table.
Proof.
  split.
  - schema_by_computation.
  - apply (@validate_frame Sample.host (ApiKeyStore.mkTick 3000 3001 true)
                           "sk-00aa" Sample.table).
    + schema_by_computation.
    + reflexivity.
Defined.

Lemma revoked_never_cleared_witness :
  well_formed Sample.table_revoked
  /\ In (set_revoked Sample.row1) Sample.table_revoked
  /\ revoked (set_revoked Sample.row1) = true
  /\ exists r', In r' (@run Sample.host
                          [OpUpdateName "id-1" "renamed"; OpDelete "id-2";
                           OpValidate Sample.tick "sk-00aa"]
                          Sample.table_revoked)
                /\ id r' = "id-1"%string /\ revoked r' = true.
Proof.
  assert (well_formed Sample.table_revoked) as W by schema_by_computation.
  split; [exact W|]. split; [simpl; auto|]. split; [reflexivity|].
  apply (@revoked_never_cleared Sample.host Sample.table_revoked
           (set_revoked Sample.row1) W).
  - simpl. auto.
  - reflexivity.
  - repeat constructor. simpl. discriminate.
Defined.

Lemma sanitized_views_hide_digest_witness :
  same_but_digest Sample.table Sample.table_other_digest
  /\ (forall q, Routes.get_all q Sample.table = Routes.get_all q Sample.table_other_digest)
  /\ (forall keyId,
        Routes.get_one keyId Sample.table = Routes.get_one keyId Sample.table_other_digest).
Proof.
  split.
  - reflexivity.
  - apply (sanitized_views_hide_digest Sample.table Sample.table_other_digest).
    reflexivity.
Defined.

Lemma post_stores_supplied_permissions_witness :
  exists r,
    [Sample.row1] = [] ++ [r]
    /\ permissions r = [JS.Str "*"]
    /\ permissions r = [JS.Str "*"]
    /\ (JS.Undefined = JS.Undefined -> permissions r = [JS.Str "*"])
    /\ (permissions r = [] <-> JS.Undefined = JS.Arr []).
Proof.
  exact (proj2 (proj2 (@post_stores_supplied_permissions Sample.host Sample.engine
                         Sample.fresh1 500 Sample.body_default []))
               (Routes.mkCreated "sk-00aa" "id-1" "CI Bot" "sk-00aa..." [JS.Str "*"] 1000
                                 JS.Null)
               201 [Sample.row1] eq_refl).
Defined.

(* ------------------------------------------------------------------ *)
(** ** Lookups by id and by digest *)

Lemma find_snoc {A : Type} (p : A -> bool) (l : list A) (a : A) :
  find p (l ++ [a]) =
  match find p l with
  | Some x => Some x
  | None => if p a then Some a else None
  end.
Proof.
  induction l as [|x l IH]; simpl; auto.
  destruct (p x); auto.
Qed.

Lemma find_touched (p : ApiKeyRecord -> bool) (g : ApiKeyRecord -> ApiKeyRecord)
      (t : Table) :
  (forall r, p (g r) = p r) ->
  find p (map g t) = option_map g (find p t).
Proof.
  intros Hp. induction t as [|x t IH]; simpl; auto.
  rewrite Hp. destruct (p x); auto.
Qed.

Lemma getById_Some (i : string) (t : Table) (r : ApiKeyRecord) :
  ApiKeyStore.getById i t = Some r -> In r t /\ id r = i.
Proof.
  unfold ApiKeyStore.getById, Sql.findById. intros E.
  apply find_some in E as [Hin Hp]. apply String.eqb_eq in Hp. auto.
Qed.

Lemma getById_In (t : Table) (r : ApiKeyRecord) :
  NoDup (map id t) -> In r t -> ApiKeyStore.getById (id r) t = Some r.
Proof.
  intros Hnd Hin. unfold ApiKeyStore.getById, Sql.findById.
  apply find_unique with (f := id); auto.
  - unfold Sql.has_id. apply String.eqb_refl.
  - intros x _ Hx. now apply String.eqb_eq in Hx.
Qed.

Lemma getById_None (i : string) (t : Table) :
  ApiKeyStore.getById i t = None <-> ~ In i (map id t).
Proof.
  unfold ApiKeyStore.getById, Sql.findById. rewrite <- has_id_existsb.
  split.
  - intros E Hex. apply existsb_exists in Hex as [x [Hx Hp]].
    eapply find_none in E; eauto. congruence.
  - intros Hno. destruct (find (Sql.has_id i) t) as [x|] eqn:E; auto.
    exfalso. apply Hno. apply find_some in E as [Hin Hp].
    apply existsb_exists. eauto.
Qed.

Lemma option_ext {A : Type} (a b : option A) :
  (forall x, a = Some x <-> b = Some x) -> a = b.
Proof.
  intros Hx. destruct a as [x|], b as [y|]; auto.
  - symmetry. now apply Hx.
  - symmetry. now apply Hx.
  - now apply Hx.
Qed.

Section Lookups.
Context `{Host}.

(** Two well-formed tables holding the same rows for a digest give the same
    answer to [validate]. *)
Lemma validate_same_rows (k : ApiKeyStore.Tick) (key : string) (t1 t2 : Table) :
  well_formed t1 -> well_formed t2 ->
  (forall x, keyHash x = hashKey key -> (In x t1 <-> In x t2)) ->
  fst (ApiKeyStore.validate k key t1) = fst (ApiKeyStore.validate k key t2).
Proof.
  intros W1 W2 Hrows. apply option_ext. intros x.
  rewrite !validate_accepts_iff by assumption.
  unfold live_match. split; intros (Hin & Hh & Hrest); (split; [|auto]);
    apply (Hrows x Hh); auto.
Qed.

Lemma create_well_formed (f : ApiKeyStore.Fresh) (input : ApiKeyStore.CreateApiKeyInput)
      (t t' : Table) (res : ApiKeyStore.CreateApiKeyResult) :
  well_formed t -> ApiKeyStore.create f input t = Some (res, t') -> well_formed t'.
Proof.
  intros W E. pose proof (step_well_formed (OpCreate f input) t W) as W'.
  unfold step in W'. now rewrite E in W'.
Qed.

Lemma create_result_valid (f : ApiKeyStore.Fresh) (input : ApiKeyStore.CreateApiKeyInput)
      (t t' : Table) (res : ApiKeyStore.CreateApiKeyResult) (k : ApiKeyStore.Tick) :
  well_formed t ->
  ApiKeyStore.create f input t = Some (res, t') ->
  unexpired (ApiKeyStore.now_check k) (ApiKeyStore.record res) ->
  fst (ApiKeyStore.validate k (ApiKeyStore.key res) t') = Some (ApiKeyStore.record res).
Proof.
  intros W E Hexp. pose proof (create_well_formed _ _ _ _ _ W E) as W'.
  apply validate_accepts_iff; auto.
  apply create_inserts in E as (-> & Hkey & Hrec & _).
  split; [apply in_or_app; simpl; auto|].
  unfold live_match. rewrite Hkey. repeat split; auto; rewrite Hrec; reflexivity.
Qed.

(** X1. Insert/lookup round trip: after a successful [create], validating
    the returned key (before its expiry) yields the returned record, which is
    also what [getById] finds under the new id; the record is active, never
    used, its key carries the [sk-] tag and its display prefix is the first
    ten characters of the key followed by an ellipsis. *)
Theorem create_then_validate (f : ApiKeyStore.Fresh) (input : ApiKeyStore.CreateApiKeyInput)
        (t t' : Table) (res : ApiKeyStore.CreateApiKeyResult) (k : ApiKeyStore.Tick) :
  well_formed t ->
  ApiKeyStore.create f input t = Some (res, t') ->
  unexpired (ApiKeyStore.now_check k) (ApiKeyStore.record res) ->
  fst (ApiKeyStore.validate k (ApiKeyStore.key res) t') = Some (ApiKeyStore.record res)
  /\ ApiKeyStore.getById (id (ApiKeyStore.record res)) t' = Some (ApiKeyStore.record res)
  /\ revoked (ApiKeyStore.record res) = false
  /\ lastUsedAt (ApiKeyStore.record res) = None
  /\ JS.startsWith (ApiKeyStore.key res) "sk-" = true
  /\ prefix (ApiKeyStore.record res)
     = (substring 0 10 (ApiKeyStore.key res) ++ "...")%string.
Proof.
  intros W E Hexp. split; [eapply create_result_valid; eauto|].
  pose proof (create_well_formed _ _ _ _ _ W E) as W'.
  pose proof E as E0.
  apply create_inserts in E as (-> & Hkey & Hrec & _).
  split.
  - apply getById_In; [apply (wf_ids _ W')|]. apply in_or_app. simpl. auto.
  - rewrite Hkey, Hrec. simpl. repeat split. apply generateKey_tagged.
Qed.

(** X2. [create] is a pure extension: every earlier row is kept, lookups by
    any other id are unchanged, and the answer of [validate] for every key
    with another digest is the same as before. *)
Theorem create_keeps_other_keys (f : ApiKeyStore.Fresh)
        (input : ApiKeyStore.CreateApiKeyInput) (t t' : Table)
        (res : ApiKeyStore.CreateApiKeyResult) :
  well_formed t ->
  ApiKeyStore.create f input t = Some (res, t') ->
  t' = t ++ [ApiKeyStore.record res]
  /\ ApiKeyStore.getById (id (ApiKeyStore.record res)) t = None
  /\ (forall i, i <> id (ApiKeyStore.record res) ->
        ApiKeyStore.getById i t' = ApiKeyStore.getById i t)
  /\ (forall k key, hashKey key <> hashKey (ApiKeyStore.key res) ->
        fst (ApiKeyStore.validate k key t') = fst (ApiKeyStore.validate k key t)).
Proof.
  intros W E. pose proof (create_well_formed _ _ _ _ _ W E) as W'.
  apply create_inserts in E as (-> & Hkey & Hrec & Hid & Hh).
  split; [reflexivity|]. split.
  { apply getById_None. rewrite Hrec. exact Hid. }
  split.
  - intros i Hi. unfold ApiKeyStore.getById, Sql.findById. rewrite find_snoc.
    destruct (find (Sql.has_id i) t); auto.
    unfold Sql.has_id. destruct (id (ApiKeyStore.record res) =? i)%string eqn:Ei; auto.
    apply String.eqb_eq in Ei. congruence.
  - intros k key Hne. apply validate_same_rows; auto.
    intros x Hx. split; intros Hin.
    + apply in_app_or in Hin as [Hin|[<-|[]]]; auto.
      exfalso. apply Hne. rewrite <- Hx, Hkey, Hrec. reflexivity.
    + apply in_or_app. auto.
Qed.

End Lookups.

(* ------------------------------------------------------------------ *)
(** ** How the store's operations compose *)

Lemma delete_result (i : string) (t : Table) :
  fst (ApiKeyStore.delete i t) = existsb (Sql.has_id i) t.
Proof. unfold ApiKeyStore.delete. simpl. apply delete_changes. Qed.

Lemma updateName_result (i n : string) (t : Table) :
  fst (ApiKeyStore.updateName i n t) = existsb (Sql.has_id i) t.
Proof.
  unfold ApiKeyStore.updateName, Sql.updateName. simpl.
  apply (update_changes (set_name n)).
Qed.

Lemma find_kept (p q : ApiKeyRecord -> bool) (t : Table) :
  (forall r, p r = true -> q r = true) ->
  find p (filter q t) = find p t.
Proof.
  intros Hpq. induction t as [|x t IH]; simpl; auto.
  destruct (q x) eqn:Eq; simpl.
  - destruct (p x); auto.
  - destruct (p x) eqn:Ep; auto. apply Hpq in Ep. congruence.
Qed.

Lemma update_untouched (g : ApiKeyRecord -> ApiKeyRecord) (i : string) (t : Table) :
  ~ In i (map id t) -> fst (Sql.update_where_id g i t) = t.
Proof.
  intros Hno. unfold Sql.update_where_id. simpl.
  rewrite <- (map_id t) at 2. apply map_ext_in. intros r Hr.
  unfold Sql.has_id. destruct (id r =? i)%string eqn:E; auto.
  apply String.eqb_eq in E. exfalso. apply Hno. rewrite <- E. now apply in_map.
Qed.

Lemma getById_updated (g : ApiKeyRecord -> ApiKeyRecord) (i j : string) (t : Table) :
  (forall r, id (g r) = id r) ->
  ApiKeyStore.getById j (fst (Sql.update_where_id g i t))
  = option_map (fun r => if Sql.has_id i r then g r else r) (ApiKeyStore.getById j t).
Proof.
  intros Hid. unfold ApiKeyStore.getById, Sql.findById, Sql.update_where_id. simpl.
  apply find_touched. intros r. unfold Sql.has_id.
  destruct (id r =? i)%string; auto. now rewrite Hid.
Qed.

Section Composition.
Context `{Host}.

(** [validate] on a table rewritten by an update that leaves digest, expiry
    and revocation alone. *)
Lemma validate_updated (g : ApiKeyRecord -> ApiKeyRecord) (i : string)
      (k : ApiKeyStore.Tick) (key : string) (t : Table) :
  (forall r, keyHash (g r) = keyHash r) ->
  (forall r, revoked (g r) = revoked r) ->
  (forall r, expiresAt (g r) = expiresAt r) ->
  fst (ApiKeyStore.validate k key (fst (Sql.update_where_id g i t)))
  = option_map (fun r => if Sql.has_id i r then g r else r)
               (fst (ApiKeyStore.validate k key t)).
Proof.
  intros Hh Hr He. rewrite !validate_result.
  unfold Sql.findByHash, Sql.update_where_id. simpl.
  rewrite find_touched.
  - destruct (find _ t) as [x|]; simpl; auto.
    assert (ApiKeyStore.expired (ApiKeyStore.now_check k)
              (if Sql.has_id i x then g x else x)
            = ApiKeyStore.expired (ApiKeyStore.now_check k) x) as ->.
    { unfold ApiKeyStore.expired. destruct (Sql.has_id i x); auto. now rewrite He. }
    destruct (ApiKeyStore.expired _ x); auto.
  - intros r. unfold Sql.has_hash, Sql.active.
    destruct (Sql.has_id i r); auto. now rewrite Hh, Hr.
Qed.

Lemma validate_success_table (k : ApiKeyStore.Tick) (key : string) (t : Table)
      (r : ApiKeyRecord) :
  fst (ApiKeyStore.validate k key t) = Some r ->
  ApiKeyStore.touch_throws k = false ->
  snd (ApiKeyStore.validate k key t)
  = fst (Sql.update_where_id (set_lastUsedAt (ApiKeyStore.now_touch k)) (id r) t).
Proof.
  unfold ApiKeyStore.validate. intros E Ht. rewrite Ht in *.
  destruct (Sql.findByHash (hashKey key) t) as [x|]; [|discriminate].
  destruct (ApiKeyStore.expired _ x); [discriminate|].
  simpl in *. now injection E as ->.
Qed.

(** X3. Revocation takes effect at once and only for the revoked key: once
    a record is revoked, [validate] on a key with its digest returns absent,
    while the answer for every key with another digest is unchanged. *)
Theorem revoke_blocks_validate (t : Table) (r : ApiKeyRecord) (key : string) :
  well_formed t -> In r t -> keyHash r = hashKey key ->
  (forall k, fst (ApiKeyStore.validate k key (snd (ApiKeyStore.revoke (id r) t))) = None)
  /\ (forall k key', hashKey key' <> hashKey key ->
        fst (ApiKeyStore.validate k key' (snd (ApiKeyStore.revoke (id r) t)))
        = fst (ApiKeyStore.validate k key' t)).
Proof.
  intros W Hr Hh.
  assert (well_formed (snd (ApiKeyStore.revoke (id r) t))) as W'.
  { rewrite revoke_table. apply update_well_formed; auto. }
  assert (forall x, In x (snd (ApiKeyStore.revoke (id r) t)) ->
            exists y, In y t /\ x = (if Sql.has_id (id r) y then set_revoked y else y))
    as Hshape.
  { rewrite revoke_table. unfold Sql.update_where_id. simpl.
    intros x Hx. apply in_map_iff in Hx as [y [<- Hy]]. eauto. }
  split.
  - intros k.
    destruct (fst (ApiKeyStore.validate k key _)) as [x|] eqn:E; auto.
    apply validate_accepts_iff in E as (Hin & Hxh & Hrev & _); auto.
    exfalso. destruct (Hshape x Hin) as [y [Hy ->]].
    assert (y = r) as ->.
    { apply (NoDup_map_inj keyHash t); auto using wf_hashes.
      destruct (Sql.has_id (id r) y); simpl in Hxh; congruence. }
    unfold Sql.has_id in Hrev. rewrite String.eqb_refl in Hrev. discriminate.
  - intros k key' Hne. apply validate_same_rows; auto.
    intros x Hx. split; intros Hin.
    + destruct (Hshape x Hin) as [y [Hy ->]].
      destruct (Sql.has_id (id r) y) eqn:Ei; auto.
      apply String.eqb_eq in Ei.
      assert (y = r) as -> by (apply (NoDup_map_inj id t); auto using wf_ids).
      simpl in Hx. congruence.
    + rewrite revoke_table. unfold Sql.update_where_id. simpl.
      apply in_map_iff. exists x. split; auto.
      destruct (Sql.has_id (id r) x) eqn:Ei; auto.
      apply String.eqb_eq in Ei.
      assert (x = r) as -> by (apply (NoDup_map_inj id t); auto using wf_ids).
      congruence.
Qed.

(** X4. Permanent deletion: [delete] returns true exactly when a row with
    the id exists; afterwards [getById] on that id is absent, a second
    [delete] returns false, lookups by every other id are unchanged, the
    deleted key no longer validates and every other stored key validates as
    before. *)
Theorem delete_removes_key (t : Table) (i : string) :
  well_formed t ->
  (fst (ApiKeyStore.delete i t) = true <-> In i (map id t))
  /\ ApiKeyStore.getById i (snd (ApiKeyStore.delete i t)) = None
  /\ fst (ApiKeyStore.delete i (snd (ApiKeyStore.delete i t))) = false
  /\ (forall j, j <> i ->
        ApiKeyStore.getById j (snd (ApiKeyStore.delete i t)) = ApiKeyStore.getById j t)
  /\ (forall k key r, In r t -> keyHash r = hashKey key ->
        fst (ApiKeyStore.validate k key (snd (ApiKeyStore.delete i t)))
        = if (id r =? i)%string then None else fst (ApiKeyStore.validate k key t)).
Proof.
  intros W.
  assert (ApiKeyStore.getById i (snd (ApiKeyStore.delete i t)) = None) as Hgone.
  { apply getById_None. rewrite delete_table. unfold Sql.deleteKey. simpl.
    intros Hin. apply in_map_iff in Hin as [x [Hx Hin]].
    apply filter_In in Hin as [_ Hp]. unfold Sql.has_id in Hp.
    rewrite Hx, String.eqb_refl in Hp. discriminate. }
  assert (well_formed (snd (ApiKeyStore.delete i t))) as W'.
  { rewrite delete_table. now apply delete_well_formed. }
  split; [rewrite delete_result; apply has_id_existsb|].
  split; [exact Hgone|].
  split.
  { rewrite delete_result.
    destruct (existsb (Sql.has_id i) (snd (ApiKeyStore.delete i t))) eqn:E; auto.
    apply has_id_existsb in E. apply getById_None in Hgone. contradiction. }
  split.
  - intros j Hj. rewrite delete_table. unfold Sql.deleteKey, ApiKeyStore.getById,
      Sql.findById. simpl. apply find_kept.
    intros r Hr. unfold Sql.has_id in *. apply String.eqb_eq in Hr.
    apply negb_true_iff, String.eqb_neq. congruence.
  - intros k key r Hr Hh.
    assert (forall x, In x (snd (ApiKeyStore.delete i t)) <-> In x t /\ id x <> i) as Hrows.
    { intros x. rewrite delete_table. unfold Sql.deleteKey. simpl.
      rewrite filter_In. unfold Sql.has_id.
      rewrite negb_true_iff, String.eqb_neq. tauto. }
    destruct (id r =? i)%string eqn:Ei.
    + apply String.eqb_eq in Ei.
      destruct (fst (ApiKeyStore.validate k key _)) as [x|] eqn:E; auto.
      apply validate_accepts_iff in E as (Hin & Hxh & _); auto.
      apply Hrows in Hin as [Hin Hne]. exfalso. apply Hne.
      assert (x = r) as -> by (apply (NoDup_map_inj keyHash t); auto using wf_hashes; congruence).
      exact Ei.
    + apply String.eqb_neq in Ei. apply validate_same_rows; auto.
      intros x Hx. rewrite Hrows. split; [tauto|]. intros Hin. split; auto.
      assert (x = r) as -> by (apply (NoDup_map_inj keyHash t); auto using wf_hashes; congruence).
      exact Ei.
Qed.

(** X5. Renaming: [updateName] returns true exactly when a row with the id
    exists; that row then carries the new name and is otherwise unchanged,
    lookups by every other id are unchanged, an unknown id leaves the table
    as it was, and the same keys validate as before, to the same record ids. *)
Theorem updateName_renames_one (t : Table) (i n : string) :
  (fst (ApiKeyStore.updateName i n t) = true <-> In i (map id t))
  /\ ApiKeyStore.getById i (snd (ApiKeyStore.updateName i n t))
     = option_map (set_name n) (ApiKeyStore.getById i t)
  /\ (forall j, j <> i ->
        ApiKeyStore.getById j (snd (ApiKeyStore.updateName i n t))
        = ApiKeyStore.getById j t)
  /\ (ApiKeyStore.getById i t = None -> snd (ApiKeyStore.updateName i n t) = t)
  /\ (forall k key,
        option_map id (fst (ApiKeyStore.validate k key (snd (ApiKeyStore.updateName i n t))))
        = option_map id (fst (ApiKeyStore.validate k key t))).
Proof.
  split; [rewrite updateName_result; apply has_id_existsb|].
  rewrite updateName_table. split; [|split; [|split]].
  - rewrite getById_updated by reflexivity.
    destruct (ApiKeyStore.getById i t) as [r|] eqn:E; simpl; auto.
    apply getById_Some in E as [_ E]. unfold Sql.has_id.
    apply String.eqb_eq in E. now rewrite E.
  - intros j Hj. rewrite getById_updated by reflexivity.
    destruct (ApiKeyStore.getById j t) as [r|] eqn:E; simpl; auto.
    apply getById_Some in E as [_ E]. unfold Sql.has_id.
    assert ((id r =? i)%string = false) as -> by (apply String.eqb_neq; congruence).
    reflexivity.
  - intros Hnone. apply update_untouched. now apply getById_None.
  - intros k key. rewrite validate_updated by reflexivity.
    destruct (fst (ApiKeyStore.validate k key t)) as [r|]; simpl; auto.
    destruct (Sql.has_id i r); reflexivity.
Qed.

(** X6. A successful [validate] whose update does not throw records the use:
    the stored row then carries [lastUsedAt] equal to the time of the update,
    and the next [validate] of the same key (before expiry) returns the record
    with that time, whereas the first call returned it with the earlier
    value. *)
Theorem validate_records_use (k : ApiKeyStore.Tick) (key : string) (t : Table)
        (r : ApiKeyRecord) :
  well_formed t ->
  fst (ApiKeyStore.validate k key t) = Some r ->
  ApiKeyStore.touch_throws k = false ->
  ApiKeyStore.getById (id r) t = Some r
  /\ ApiKeyStore.getById (id r) (snd (ApiKeyStore.validate k key t))
     = Some (set_lastUsedAt (ApiKeyStore.now_touch k) r)
  /\ (forall k2, unexpired (ApiKeyStore.now_check k2) r ->
        fst (ApiKeyStore.validate k2 key (snd (ApiKeyStore.validate k key t)))
        = Some (set_lastUsedAt (ApiKeyStore.now_touch k) r)).
Proof.
  intros W E Ht. rewrite (validate_success_table k key t r E Ht).
  apply validate_accepts_iff in E as (Hin & Hh & Hrev & Hexp); auto.
  assert (ApiKeyStore.getById (id r) t = Some r) as Hget
    by (apply getById_In; auto using wf_ids).
  assert (Sql.has_id (id r) r = true) as Hself by apply String.eqb_refl.
  split; [exact Hget|]. split.
  - rewrite getById_updated by reflexivity. rewrite Hget. simpl. now rewrite Hself.
  - intros k2 Hk2. rewrite validate_updated by reflexivity.
    assert (fst (ApiKeyStore.validate k2 key t) = Some r) as ->.
    { apply validate_accepts_iff; auto. unfold live_match. auto. }
    simpl. now rewrite Hself.
Qed.

(** X7. [validate] never changes who validates: after any [validate] call,
    every key gets the answer it would have got before, up to the
    [lastUsedAt] field of the returned record. *)
Theorem validate_only_touches_lastUsedAt (k1 k2 : ApiKeyStore.Tick) (key1 key2 : string)
        (t : Table) :
  agree_but_lastUsedAt
    (fst (ApiKeyStore.validate k2 key2 (snd (ApiKeyStore.validate k1 key1 t))))
    (fst (ApiKeyStore.validate k2 key2 t)).
Proof.
  assert (forall o : option ApiKeyRecord, agree_but_lastUsedAt o o) as Hrefl.
  { intros [x|]; simpl; auto. split; [|repeat split]; reflexivity. }
  destruct (validate_table k1 key1 t) as [->|[r ->]]; auto.
  unfold Sql.updateLastUsed. rewrite validate_updated by reflexivity.
  destruct (fst (ApiKeyStore.validate k2 key2 t)) as [x|]; simpl; auto.
  destruct (Sql.has_id (id r) x); [|apply (Hrefl (Some x))].
  unfold same_but_lastUsedAt. simpl. tauto.
Qed.

End Composition.

(* ------------------------------------------------------------------ *)
(** ** getActiveCount *)

Lemma active_length_le (t : Table) :
  (List.length (filter Sql.active t) <= List.length t)%nat.
Proof.
  induction t as [|x t IH]; simpl; auto.
  destruct (Sql.active x); simpl; lia.
Qed.

Lemma revoke_drops_one_active (i : string) (t : Table) (r : ApiKeyRecord) :
  NoDup (map id t) -> In r t -> id r = i -> revoked r = false ->
  S (List.length (filter Sql.active (fst (Sql.update_where_id set_revoked i t))))
  = List.length (filter Sql.active t).
Proof.
  unfold Sql.update_where_id. simpl.
  induction t as [|x t IH]; simpl; intros Hnd Hin Hid Hrev; [contradiction|].
  apply NoDup_cons_iff in Hnd as [Hnotin Hnd].
  unfold Sql.has_id at 1. destruct (id x =? i)%string eqn:Ei.
  - apply String.eqb_eq in Ei.
    assert (x = r) as ->.
    { destruct Hin as [Hx|Hin]; auto.
      exfalso. apply Hnotin. rewrite Ei, <- Hid. now apply in_map. }
    change (Sql.active (set_revoked r)) with false.
    assert (Sql.active r = true) as -> by (unfold Sql.active; now rewrite Hrev).
    simpl. do 3 f_equal. rewrite <- (map_id t) at 2. apply map_ext_in.
    intros y Hy. unfold Sql.has_id. destruct (id y =? i)%string eqn:Ey; auto.
    apply String.eqb_eq in Ey. exfalso. apply Hnotin. rewrite Ei, <- Ey. now apply in_map.
  - apply String.eqb_neq in Ei.
    destruct Hin as [Hx|Hin]; [subst; contradiction|].
    specialize (IH Hnd Hin Hid Hrev).
    destruct (Sql.active x); simpl; lia.
Qed.

Section Counting.
Context `{Host}.

(** X8. [getActiveCount] is the number of keys [list(false)] returns and
    never exceeds the number of rows; a successful [create] raises it by one,
    and revoking a stored key lowers it by one when the key was active and
    leaves it unchanged when the key was already revoked. *)
Theorem activeCount_tracks_keys (t : Table) :
  ApiKeyStore.getActiveCount t = Z.of_nat (List.length (ApiKeyStore.list false t))
  /\ 0 <= ApiKeyStore.getActiveCount t <= Z.of_nat (List.length t)
  /\ (forall f input res t',
        ApiKeyStore.create f input t = Some (res, t') ->
        ApiKeyStore.getActiveCount t' = ApiKeyStore.getActiveCount t + 1)
  /\ (forall r, well_formed t -> In r t ->
        ApiKeyStore.getActiveCount (snd (ApiKeyStore.revoke (id r) t))
        = ApiKeyStore.getActiveCount t - (if revoked r then 0 else 1)).
Proof.
  unfold ApiKeyStore.getActiveCount, Sql.count. repeat apply conj.
  - f_equal. symmetry. apply Permutation_length. apply order_perm.
  - lia.
  - pose proof (active_length_le t). lia.
  - intros f input res t' E.
    apply create_inserts in E as (-> & _ & Hrec & _).
    rewrite filter_app, length_app. simpl.
    unfold Sql.active at 2. rewrite Hrec. simpl. lia.
  - intros r W Hr. destruct (revoked r) eqn:Hrev.
    + rewrite revoke_unchanged; [lia|].
      intros x Hx Hid.
      assert (x = r) as -> by (apply (NoDup_map_inj id t); auto using wf_ids). auto.
    + rewrite revoke_table.
      pose proof (revoke_drops_one_active (id r) t r (wf_ids t W) Hr eq_refl Hrev). lia.
Qed.

End Counting.

(* ------------------------------------------------------------------ *)
(** ** The three gates side by side *)

Section Gates.
Context `{Host}.

(** X9. The optional gate never rejects and otherwise does exactly what the
    required gate does: it attaches the record the required gate would have
    attached, proceeds without a record where the required gate would have
    answered 401, and makes the same [store.validate] calls with the same
    effect on the table. *)
Theorem optional_auth_mirrors_required (k : ApiKeyStore.Tick) (hdr : option string)
        (t : Table) :
  Middleware.outcome (Middleware.createOptionalApiKeyAuth k hdr t)
  = Middleware.Next
      (match Middleware.outcome (Middleware.createApiKeyAuth k hdr t) with
       | Middleware.Next apiKey => apiKey
       | Middleware.Rejected _ _ _ => None
       end)
  /\ Middleware.table_after (Middleware.createOptionalApiKeyAuth k hdr t)
     = Middleware.table_after (Middleware.createApiKeyAuth k hdr t)
  /\ Middleware.validated (Middleware.createOptionalApiKeyAuth k hdr t)
     = Middleware.validated (Middleware.createApiKeyAuth k hdr t).
Proof.
  unfold Middleware.createOptionalApiKeyAuth, Middleware.createApiKeyAuth,
    Middleware.bad_format. cbv zeta.
  destruct (Middleware.missing hdr); [simpl; auto|].
  destruct (Nat.eqb _ 2); cbn [negb orb andb]; [|simpl; auto].
  destruct (nth 0 _ "" =? "Bearer")%string; cbn [negb orb andb]; [|simpl; auto].
  set (key := nth 1 (JS.split_space (Middleware.header_text hdr)) ""%string).
  pose proof (tagged_not_empty key) as Htag.
  pose proof (untagged_rejected key) as Hno.
  destruct (JS.startsWith key "sk-").
  - rewrite (Htag eq_refl).
    destruct (ApiKeyStore.validate k key t) as [[r|] t']; simpl; auto.
  - rewrite (Hno eq_refl). simpl. auto.
Qed.

(** X10. How the admin gate rejects: a missing header or one that is not
    [Bearer <token>] gives 401 without touching the store; once the header
    parses the answer is never 401 but [next()] or 403; a token that is
    neither the root secret nor tagged [sk-] gets 403 without a lookup; and
    a valid key without an admin permission gets 403 after the lookup has
    already recorded the use in [lastUsedAt]. *)
Theorem adminAuth_rejections (adminKey : option string) (k : ApiKeyStore.Tick)
        (hdr : option string) (t : Table) :
  let run := Middleware.createAdminAuth adminKey k hdr t in
  ((hdr = None \/ exists h, hdr = Some h /\ forall token, ~ bearer_header h token) ->
     rejected_with 401 run /\ Middleware.validated run = []
     /\ Middleware.table_after run = t)
  /\ (forall h token, hdr = Some h -> bearer_header h token ->
        authorized run
        \/ Middleware.outcome run
           = Middleware.Rejected 403 UNAUTHORIZED "Invalid admin credentials")
  /\ (forall h token, hdr = Some h -> bearer_header h token ->
        ~ root_secret adminKey token -> JS.startsWith token "sk-" = false ->
        run = Middleware.mkRun
                (Middleware.Rejected 403 UNAUTHORIZED "Invalid admin credentials") t [])
  /\ (forall h token r, hdr = Some h -> bearer_header h token ->
        ~ root_secret adminKey token -> JS.startsWith token "sk-" = true ->
        fst (ApiKeyStore.validate k token t) = Some r ->
        Middleware.admin_permission r = false ->
        ApiKeyStore.touch_throws k = false ->
        run = Middleware.mkRun
                (Middleware.Rejected 403 UNAUTHORIZED "Invalid admin credentials")
                (fst (Sql.updateLastUsed (ApiKeyStore.now_touch k) (id r) t)) [token]).
Proof.
  cbv zeta. repeat apply conj.
  - unfold rejected_with. intros [->|[h [-> Hno]]]; [simpl; eauto|].
    unfold Middleware.createAdminAuth.
    destruct (Middleware.missing (Some h)) eqn:Em; [simpl; eauto|].
    destruct (not_bearer_bad_format h Hno) as [E|E]; [congruence|].
    simpl Middleware.header_text. rewrite E. simpl. eauto.
  - intros h token -> Hb. rewrite (adminAuth_bearer _ _ _ _ _ Hb).
    unfold authorized, admin_decision.
    destruct (Middleware.is_admin_key adminKey token); [left; simpl; eauto|].
    destruct (JS.startsWith token "sk-"); auto.
    destruct (ApiKeyStore.validate k token t) as [[r|] t']; auto.
    destruct (Middleware.admin_permission r); [left; simpl; eauto|auto].
  - intros h token -> Hb Hroot Hp. rewrite (adminAuth_bearer _ _ _ _ _ Hb).
    unfold admin_decision. rewrite Hp.
    destruct (Middleware.is_admin_key adminKey token) eqn:Ek; auto.
    exfalso. apply Hroot. now apply is_admin_key_iff.
  - intros h token r -> Hb Hroot Hp Hv Hperm Hthrow.
    rewrite (adminAuth_bearer _ _ _ _ _ Hb). unfold admin_decision. rewrite Hp.
    destruct (Middleware.is_admin_key adminKey token) eqn:Ek.
    { exfalso. apply Hroot. now apply is_admin_key_iff. }
    pose proof (validate_success_table k token t r Hv Hthrow) as Ht.
    destruct (ApiKeyStore.validate k token t) as [[x|] t']; simpl in *; [|discriminate].
    injection Hv as ->. rewrite Hperm. now subst t'.
Qed.

(** X11. Every key the admin gate lets through is let through by the
    required gate as well, with the same record, the same lookup and the same
    table afterwards; the root secret, when it lacks the [sk-] tag, is
    answered 401 there, so it opens the admin routes only. *)
Theorem admin_key_passes_auth (adminKey : option string) (k : ApiKeyStore.Tick)
        (hdr : option string) (t : Table) :
  (forall r,
      Middleware.outcome (Middleware.createAdminAuth adminKey k hdr t)
      = Middleware.Next (Some r) ->
      Middleware.createApiKeyAuth k hdr t = Middleware.createAdminAuth adminKey k hdr t)
  /\ (forall h token, hdr = Some h -> bearer_header h token ->
        root_secret adminKey token -> JS.startsWith token "sk-" = false ->
        Middleware.createAdminAuth adminKey k hdr t
        = Middleware.mkRun (Middleware.Next None) t []
        /\ Middleware.createApiKeyAuth k hdr t
           = Middleware.mkRun
               (Middleware.Rejected 401 UNAUTHORIZED "Invalid API key format") t []).
Proof.
  split.
  - intros r Hout.
    assert (authorized (Middleware.createAdminAuth adminKey k hdr t)) as Hauth
      by (unfold authorized; eauto).
    destruct (adminAuth_needs_bearer _ _ _ _ Hauth) as (h & token & -> & Hb).
    rewrite (adminAuth_bearer _ _ _ _ _ Hb) in *.
    unfold Middleware.createApiKeyAuth.
    destruct (bearer_header_parts h token Hb) as (-> & E2 & E3).
    simpl Middleware.header_text. rewrite E2, E3.
    unfold admin_decision in *.
    destruct (Middleware.is_admin_key adminKey token); [discriminate|].
    pose proof (tagged_not_empty token) as Htag.
    destruct (JS.startsWith token "sk-"); [|discriminate].
    rewrite (Htag eq_refl).
    destruct (ApiKeyStore.validate k token t) as [[x|] t']; [|discriminate].
    destruct (Middleware.admin_permission x); [reflexivity|discriminate].
  - intros h token -> Hb Hroot Hp. split.
    + rewrite (adminAuth_bearer _ _ _ _ _ Hb). unfold admin_decision.
      apply is_admin_key_iff in Hroot. now rewrite Hroot.
    + unfold Middleware.createApiKeyAuth.
      destruct (bearer_header_parts h token Hb) as (-> & E2 & E3).
      simpl Middleware.header_text. rewrite E2, E3, (untagged_rejected _ Hp).
      reflexivity.
Qed.

End Gates.

(* ------------------------------------------------------------------ *)
(** ** The admin routes end to end *)

Lemma name_present (s : string) :
  JS.trim s <> ""%string -> Routes.name_missing (JS.Str s) = false.
Proof.
  intros Htrim. unfold Routes.name_missing. simpl.
  destruct s as [|ch s']; [exfalso; now apply Htrim|]. simpl.
  destruct (JS.trim (String ch s')) eqn:Et; [congruence|reflexivity].
Qed.

Lemma nospace_generateKey (f : ApiKeyStore.Fresh) :
  nospace (ApiKeyStore.random_hex f) -> nospace (ApiKeyStore.generateKey f).
Proof.
  intros Hn. unfold ApiKeyStore.generateKey. simpl.
  repeat (apply nospace_cons; split; [discriminate|]). exact Hn.
Qed.

Section RoutesEndToEnd.
Context `{Host} `{Engine}.

Lemma unexpired_not_expired (now : Z) (r : ApiKeyRecord) :
  unexpired now r -> ApiKeyStore.expired now r = false.
Proof.
  unfold unexpired, ApiKeyStore.expired.
  destruct (expiresAt r) as [e|]; auto.
  intros Hle. apply andb_false_iff. right. now apply Z.ltb_ge.
Qed.

(** The values whose column would not hold an integer: a text, alone or as
    the only element of an array, that the engine does not convert. *)
Lemma bind_not_integer (v : JS.value) :
  Sql.bind_expires_at v = Sql.NotInteger <->
  exists s, (v = JS.Str s \/ v = JS.Arr [JS.Str s]) /\ integerAffinity s = None.
Proof.
  split.
  - destruct v as [| |b|z|s|l|o]; simpl; try discriminate.
    + destruct (integerAffinity s) eqn:E; [discriminate|]. eauto.
    + destruct l as [|x [|y l]]; try discriminate.
      destruct x as [| |b|z|s|l|o]; simpl; try discriminate.
      destruct (integerAffinity s) eqn:E; [discriminate|]. eauto.
  - intros [s [[-> | ->] E]]; simpl; now rewrite E.
Qed.

(** The ways POST / can end. *)
Lemma post_cases (f : ApiKeyStore.Fresh) (now : Z) (body : Routes.Body) (t : Table) :
  (exists message,
      Routes.post f now body t
      = Some (Routes.errorResponse VALIDATION_ERROR message 400, t))
  \/ Routes.post f now body t
     = Some (Routes.errorResponse INTERNAL_ERROR "Failed to create API key" 500, t)
  \/ (exists c t',
        Routes.post f now body t
        = Some (Routes.successResponse (Routes.Created c) 201, t'))
  \/ Routes.post f now body t = None.
Proof.
  unfold Routes.post. cbv zeta.
  destruct (Routes.name_missing _); eauto.
  destruct (100 <? _); eauto.
  destruct (Routes.permissions_rejected _); eauto.
  destruct (Routes.expiresAt_rejected now _); eauto.
  destruct (ApiKeyStore.create_untyped f _ t) as [key row raw t'| |]; auto.
  right. right. left. eauto.
Qed.

(** The requests this model does not follow to a response. *)
Lemma post_outside (f : ApiKeyStore.Fresh) (now : Z) (body : Routes.Body) (t : Table) :
  Routes.post f now body t = None <->
  Routes.name_missing (Routes.b_name body) = false
  /\ (100 <? JS.length (Routes.str_of (Routes.b_name body))) = false
  /\ Routes.permissions_rejected (Routes.b_permissions body) = false
  /\ Routes.expiresAt_rejected now (Routes.b_expiresAt body) = false
  /\ Sql.bind_expires_at (JS.or_else (Routes.b_expiresAt body) JS.Null) = Sql.NotInteger.
Proof.
  unfold Routes.post. cbv zeta.
  destruct (Routes.name_missing _);
    [split; [discriminate|intros (E & _); discriminate]|].
  destruct (100 <? _);
    [split; [discriminate|intros (_ & E & _); discriminate]|].
  destruct (Routes.permissions_rejected _);
    [split; [discriminate|intros (_ & _ & E & _); discriminate]|].
  destruct (Routes.expiresAt_rejected now _);
    [split; [discriminate|intros (_ & _ & _ & E & _); discriminate]|].
  unfold ApiKeyStore.create_untyped, Routes.store_input. cbv zeta.
  cbn [ApiKeyStore.un_expiresAt]. rewrite or_else_null_twice.
  destruct (Sql.bind_expires_at _) as [|e|].
  - split; [discriminate|intros (_ & _ & _ & _ & E); discriminate].
  - match goal with |- context [Sql.insert ?r t] => destruct (Sql.insert r t) end;
      (split; [discriminate|intros (_ & _ & _ & _ & E); discriminate]).
  - split; auto.
Qed.

(** X12. POST / answers 201, 400 or 500 and nothing else; unless it answers
    201 the table is left as it was, and an id or digest that is already
    stored never gives 201; a 201 appends exactly one row, under the returned
    id, whose digest is the digest of the returned key, whose name is the
    trimmed name of the request, and which is active and unused; the returned
    key carries the [sk-] tag and the returned prefix is its first ten
    characters and an ellipsis; the returned [expiresAt] is the value of the
    request ([null] when that is falsy), and the row stores what the binding
    makes of it.  The one kind of request not followed to a response is a
    valid one whose [expiresAt] is a text, alone or in a one-element array,
    that the engine keeps as a text. *)
Theorem post_persists_only_on_201 (f : ApiKeyStore.Fresh) (now : Z) (body : Routes.Body)
        (t : Table) :
  (forall resp t',
      Routes.post f now body t = Some (resp, t') ->
      (status_of resp = 201 \/ status_of resp = 400 \/ status_of resp = 500)
      /\ (status_of resp <> 201 -> t' = t)
      /\ (In (ApiKeyStore.uuid f) (map id t)
          \/ In (hashKey (ApiKeyStore.generateKey f)) (map keyHash t) ->
          status_of resp <> 201)
      /\ (forall c st, resp = Routes.successResponse (Routes.Created c) st ->
            exists r,
              t' = t ++ [r]
              /\ id r = Routes.c_id c
              /\ keyHash r = hashKey (Routes.c_key c)
              /\ name r = JS.trim (Routes.str_of (Routes.b_name body))
              /\ Routes.c_name c = name r
              /\ revoked r = false /\ lastUsedAt r = None
              /\ JS.startsWith (Routes.c_key c) "sk-" = true
              /\ Routes.c_prefix c = (substring 0 10 (Routes.c_key c) ++ "...")%string
              /\ Routes.c_expiresAt c = JS.or_else (Routes.b_expiresAt body) JS.Null
              /\ Sql.bind_expires_at (Routes.c_expiresAt c) = Sql.Stored (expiresAt r)))
  /\ (Routes.post f now body t = None <->
      Routes.name_missing (Routes.b_name body) = false
      /\ (100 <? JS.length (Routes.str_of (Routes.b_name body))) = false
      /\ Routes.permissions_rejected (Routes.b_permissions body) = false
      /\ Routes.expiresAt_rejected now (Routes.b_expiresAt body) = false
      /\ exists s,
           ((Routes.b_expiresAt body = JS.Str s /\ s <> ""%string)
            \/ Routes.b_expiresAt body = JS.Arr [JS.Str s])
           /\ integerAffinity s = None).
Proof.
  assert (forall c st t',
            Routes.post f now body t
            = Some (Routes.successResponse (Routes.Created c) st, t') ->
            st = 201
            /\ ~ In (ApiKeyStore.uuid f) (map id t)
            /\ ~ In (hashKey (ApiKeyStore.generateKey f)) (map keyHash t)
            /\ exists r,
                t' = t ++ [r]
                /\ id r = Routes.c_id c
                /\ keyHash r = hashKey (Routes.c_key c)
                /\ name r = JS.trim (Routes.str_of (Routes.b_name body))
                /\ Routes.c_name c = name r
                /\ revoked r = false /\ lastUsedAt r = None
                /\ JS.startsWith (Routes.c_key c) "sk-" = true
                /\ Routes.c_prefix c = (substring 0 10 (Routes.c_key c) ++ "...")%string
                /\ Routes.c_expiresAt c = JS.or_else (Routes.b_expiresAt body) JS.Null
                /\ Sql.bind_expires_at (Routes.c_expiresAt c) = Sql.Stored (expiresAt r))
    as Hcreated.
  { intros c st t' E.
    apply post_created in E as (key & row & raw & _ & _ & _ & _ & Hc & -> & ->).
    apply create_untyped_returned in Hc as (-> & Hraw & Hb & Hrow & -> & Hid & Hh).
    repeat split; auto.
    exists row. cbn [Routes.c_id Routes.c_key Routes.c_name Routes.c_prefix
                     Routes.c_expiresAt].
    rewrite Hrow. cbn [id keyHash name revoked lastUsedAt prefix expiresAt].
    repeat split; auto.
    - apply generateKey_tagged.
    - rewrite Hraw. cbn [Routes.store_input ApiKeyStore.un_expiresAt].
      apply or_else_null_twice. }
  split.
  - intros resp t' E.
    destruct (post_cases f now body t) as [[msg E']|[E'|[[c [t1 E']]|E']]];
      rewrite E' in E; try discriminate; injection E as <- <-.
    + simpl. repeat split; auto; try lia. discriminate.
    + simpl. repeat split; auto; try lia. discriminate.
    + destruct (Hcreated c 201 t1 E') as (_ & Hid & Hh & Hr).
      simpl. repeat split; auto.
      * intros Hne. congruence.
      * intros [Hin|Hin] _; contradiction.
      * intros c' st [= <- <-]. exact Hr.
  - rewrite post_outside.
    assert (Sql.bind_expires_at (JS.or_else (Routes.b_expiresAt body) JS.Null)
            = Sql.NotInteger
            <-> exists s,
                 ((Routes.b_expiresAt body = JS.Str s /\ s <> ""%string)
                  \/ Routes.b_expiresAt body = JS.Arr [JS.Str s])
                 /\ integerAffinity s = None) as Hb.
    { rewrite bind_not_integer. split.
      - intros [s [Hv E]]. exists s. split; auto.
        unfold JS.or_else in Hv.
        destruct (Routes.b_expiresAt body) as [| |b|z|x|l|o]; simpl in Hv;
          try (destruct Hv; discriminate).
        + destruct b; destruct Hv; discriminate.
        + destruct (z =? 0); destruct Hv; discriminate.
        + destruct (x =? "")%string eqn:Ex; simpl in Hv;
            [destruct Hv; discriminate|].
          destruct Hv as [[= ->]|Hv]; [|discriminate].
          left. split; auto. now apply String.eqb_neq.
        + destruct Hv as [Hv|Hv]; [discriminate|auto].
      - intros [s [[[Hv Hs] | Hv] E]]; exists s; (split; [|exact E]); rewrite Hv.
        + left. unfold JS.or_else. simpl.
          apply String.eqb_neq in Hs. now rewrite Hs.
        + right. reflexivity. }
    tauto.
Qed.

(** X13. A key handed out by POST / works: with a space-free random part,
    the row is found by GET /:keyId with the id, name, prefix, permissions
    and creation time of the 201 response, [revoked] false, [lastUsedAt]
    null and, as [expiresAt], the value the column holds (what the binding
    made of the [expiresAt] of the 201 response, which is the value of the
    request); and a request carrying [Bearer <key>] passes the required gate
    with that row attached, as long as the stored expiry has not passed. *)
Theorem issued_key_passes_gate (f : ApiKeyStore.Fresh) (now : Z) (body : Routes.Body)
        (t t' : Table) (c : Routes.CreatedKey) (k : ApiKeyStore.Tick) :
  well_formed t ->
  nospace (ApiKeyStore.random_hex f) ->
  Routes.post f now body t = Some (Routes.successResponse (Routes.Created c) 201, t') ->
  exists r,
    ApiKeyStore.getById (Routes.c_id c) t' = Some r
    /\ Sql.bind_expires_at (Routes.c_expiresAt c) = Sql.Stored (expiresAt r)
    /\ Routes.get_one (Routes.c_id c) t'
       = Routes.successResponse
           (Routes.KeyDetail
              (Routes.mkSanitized (Routes.c_id c) (Routes.c_name c) (Routes.c_prefix c)
                                  (Routes.c_permissions c) (Routes.c_createdAt c) None
                                  (expiresAt r) false))
           200
    /\ (unexpired (ApiKeyStore.now_check k) r ->
        Middleware.createApiKeyAuth k (Some ("Bearer " ++ Routes.c_key c)%string) t'
        = Middleware.mkRun (Middleware.Next (Some r))
                           (snd (ApiKeyStore.validate k (Routes.c_key c) t'))
                           [Routes.c_key c]).
Proof.
  intros W Hhex Hpost.
  apply post_created in Hpost as (key & row & raw & _ & _ & _ & _ & Hc & -> & _).
  apply create_untyped_returned in Hc as (-> & _ & Hb & Hrow & -> & Hid & Hh).
  cbn [Routes.c_key Routes.c_id Routes.c_name Routes.c_prefix Routes.c_permissions
       Routes.c_createdAt Routes.c_expiresAt].
  assert (id row = ApiKeyStore.uuid f) as Eid by (rewrite Hrow; reflexivity).
  assert (keyHash row = hashKey (ApiKeyStore.generateKey f)) as Eh
    by (rewrite Hrow; reflexivity).
  assert (revoked row = false) as Er by (rewrite Hrow; reflexivity).
  assert (lastUsedAt row = None) as El by (rewrite Hrow; reflexivity).
  assert (In row (t ++ [row])) as Hin by (apply in_or_app; simpl; auto).
  assert (NoDup (map id (t ++ [row]))) as Nid.
  { rewrite map_app. simpl. apply NoDup_snoc; [apply (wf_ids _ W)|now rewrite Eid]. }
  assert (NoDup (map keyHash (t ++ [row]))) as Nh.
  { rewrite map_app. simpl. apply NoDup_snoc; [apply (wf_hashes _ W)|now rewrite Eh]. }
  pose proof (getById_In _ _ Nid Hin) as Hget.
  exists row. split; [exact Hget|]. split; [exact Hb|]. split.
  - unfold Routes.get_one. rewrite Hget. unfold Routes.sanitize.
    now rewrite Er, El.
  - intros Hexp.
    assert (bearer_header ("Bearer " ++ ApiKeyStore.generateKey f)
                          (ApiKeyStore.generateKey f)) as Hbh.
    { split; [reflexivity|]. now apply nospace_generateKey. }
    unfold Middleware.createApiKeyAuth.
    destruct (bearer_header_parts _ _ Hbh) as (-> & E2 & E3).
    unfold Middleware.header_text. rewrite E2, E3.
    rewrite (tagged_not_empty _ (generateKey_tagged f)).
    pose proof (validate_result k (ApiKeyStore.generateKey f) (t ++ [row])) as Hv.
    rewrite (findByHash_unique _ _ row Nh Hin Eh Er) in Hv.
    rewrite (unexpired_not_expired _ _ Hexp) in Hv.
    destruct (ApiKeyStore.validate k (ApiKeyStore.generateKey f) (t ++ [row]))
      as [[x|] t'']; simpl in *; [|discriminate].
    now injection Hv as ->.
Qed.

(** X14. The list and the detail view agree: every record GET / lists is
    what GET /:keyId returns for its id, every record GET /:keyId returns is
    listed by GET /?includeRevoked=true, and GET /:keyId answers 404 exactly
    for the ids that no row carries. *)
Theorem detail_agrees_with_list (t : Table) :
  well_formed t ->
  (forall q v,
      In v (map Routes.sanitize (ApiKeyStore.list (Routes.includeRevoked q) t)) ->
      Routes.get_one (Routes.v_id v) t = Routes.successResponse (Routes.KeyDetail v) 200)
  /\ (forall i v,
        Routes.get_one i t = Routes.successResponse (Routes.KeyDetail v) 200 ->
        Routes.v_id v = i
        /\ In v (map Routes.sanitize
                     (ApiKeyStore.list (Routes.includeRevoked (Some "true"%string)) t)))
  /\ (forall i,
        Routes.get_one i t = Routes.errorResponse NOT_FOUND "API key not found" 404
        <-> ~ In i (map id t)).
Proof.
  intros W. repeat apply conj.
  - intros q v Hv. apply in_map_iff in Hv as [r [<- Hr]].
    assert (In r t) as Hin.
    { destruct (Routes.includeRevoked q); simpl in Hr.
      - eapply Permutation_in; [apply order_perm|exact Hr].
      - apply (Permutation_in _ (order_perm _)) in Hr.
        now apply filter_In in Hr as [Hr _]. }
    unfold Routes.get_one. simpl Routes.v_id.
    now rewrite (getById_In t r (wf_ids t W) Hin).
  - intros i v E. unfold Routes.get_one in E.
    destruct (ApiKeyStore.getById i t) as [r|] eqn:Eg; [|discriminate].
    injection E as <-. apply getById_Some in Eg as [Hin Hid]. split; auto.
    apply in_map. simpl. eapply Permutation_in; [symmetry; apply order_perm|exact Hin].
  - intros i. rewrite <- getById_None. unfold Routes.get_one.
    destruct (ApiKeyStore.getById i t); split; intros E; auto; discriminate.
Qed.

(** X15. PUT /:keyId: a missing, non-string or blank name gives 400 and an
    unknown id 404, both without a change; otherwise the answer is 200 with
    the trimmed name, the row carries that name and nothing else changed in
    it, and lookups by other ids are unchanged.  No upper bound is put on the
    length of the name. *)
Theorem put_renames_existing_key (keyId : string) (name_ : JS.value) (t : Table) :
  (Routes.name_missing name_ = true ->
     KeyRoutes.put keyId name_ t
     = (KeyRoutes.errorResponse VALIDATION_ERROR "Name is required" 400, t))
  /\ (Routes.name_missing name_ = false -> ~ In keyId (map id t) ->
        KeyRoutes.put keyId name_ t
        = (KeyRoutes.errorResponse NOT_FOUND "API key not found" 404, t))
  /\ (forall s r, name_ = JS.Str s -> JS.trim s <> ""%string ->
        ApiKeyStore.getById keyId t = Some r ->
        fst (KeyRoutes.put keyId name_ t)
        = KeyRoutes.successResponse (KeyRoutes.Updated keyId (JS.trim s)) 200
        /\ ApiKeyStore.getById keyId (snd (KeyRoutes.put keyId name_ t))
           = Some (set_name (JS.trim s) r)
        /\ (forall j, j <> keyId ->
              ApiKeyStore.getById j (snd (KeyRoutes.put keyId name_ t))
              = ApiKeyStore.getById j t)).
Proof.
  unfold KeyRoutes.put. repeat apply conj.
  - now intros ->.
  - intros -> Hno. apply getById_None in Hno. now rewrite Hno.
  - intros s r -> Htrim Hget.
    assert (KeyRoutes.put keyId (JS.Str s) t
            = (KeyRoutes.successResponse (KeyRoutes.Updated keyId (JS.trim s)) 200,
               snd (ApiKeyStore.updateName keyId (JS.trim s) t))) as E.
    { unfold KeyRoutes.put. rewrite (name_present s Htrim), Hget.
      simpl Routes.str_of. unfold ApiKeyStore.updateName.
      destruct (Sql.updateName (JS.trim s) keyId t). reflexivity. }
    unfold KeyRoutes.put in E. rewrite E. cbn [fst snd].
    assert (Sql.has_id keyId r = true) as Hself.
    { apply getById_Some in Hget as [_ <-]. apply String.eqb_refl. }
    rewrite updateName_table.
    split; [reflexivity|]. split.
    + rewrite getById_updated by reflexivity. rewrite Hget. simpl. now rewrite Hself.
    + intros j Hj. rewrite getById_updated by reflexivity.
      destruct (ApiKeyStore.getById j t) as [x|] eqn:Ej; simpl; auto.
      apply getById_Some in Ej as [_ Ej]. unfold Sql.has_id.
      assert ((id x =? keyId)%string = false) as -> by (apply String.eqb_neq; congruence).
      reflexivity.
Qed.

(** X16. DELETE /:keyId: an unknown id gives 404 without a change.  For a
    stored key, [?permanent=true] removes the row, so that the same request
    repeated gives 404; without it the row stays and is marked revoked, and
    the same request repeated gives the same 200 answer and changes
    nothing. *)
Theorem delete_route_revokes_or_removes (keyId : string) (q : option string) (t : Table) :
  (~ In keyId (map id t) ->
     KeyRoutes.delete keyId q t
     = (KeyRoutes.errorResponse NOT_FOUND "API key not found" 404, t))
  /\ (forall r, ApiKeyStore.getById keyId t = Some r -> KeyRoutes.permanent q = true ->
        fst (KeyRoutes.delete keyId q t)
        = KeyRoutes.successResponse (KeyRoutes.Removed keyId "deleted") 200
        /\ ApiKeyStore.getById keyId (snd (KeyRoutes.delete keyId q t)) = None
        /\ KeyRoutes.delete keyId q (snd (KeyRoutes.delete keyId q t))
           = (KeyRoutes.errorResponse NOT_FOUND "API key not found" 404,
              snd (KeyRoutes.delete keyId q t)))
  /\ (forall r, ApiKeyStore.getById keyId t = Some r -> KeyRoutes.permanent q = false ->
        fst (KeyRoutes.delete keyId q t)
        = KeyRoutes.successResponse (KeyRoutes.Removed keyId "revoked") 200
        /\ ApiKeyStore.getById keyId (snd (KeyRoutes.delete keyId q t))
           = Some (set_revoked r)
        /\ KeyRoutes.delete keyId q (snd (KeyRoutes.delete keyId q t))
           = KeyRoutes.delete keyId q t).
Proof.
  repeat apply conj.
  - intros Hno. unfold KeyRoutes.delete. apply getById_None in Hno. now rewrite Hno.
  - intros r Hget Hperm.
    assert (KeyRoutes.delete keyId q t
            = (KeyRoutes.successResponse (KeyRoutes.Removed keyId "deleted") 200,
               fst (Sql.deleteKey keyId t))) as E.
    { unfold KeyRoutes.delete. rewrite Hget, Hperm. reflexivity. }
    rewrite E. cbn [fst snd].
    assert (ApiKeyStore.getById keyId (fst (Sql.deleteKey keyId t)) = None) as Hgone.
    { apply getById_None. unfold Sql.deleteKey. simpl.
      intros Hin. apply in_map_iff in Hin as [x [Hx Hin]].
      apply filter_In in Hin as [_ Hp]. unfold Sql.has_id in Hp.
      rewrite Hx, String.eqb_refl in Hp. discriminate. }
    repeat split; auto.
    unfold KeyRoutes.delete. now rewrite Hgone.
  - intros r Hget Hperm.
    assert (forall t0 x, ApiKeyStore.getById keyId t0 = Some x ->
              KeyRoutes.delete keyId q t0
              = (KeyRoutes.successResponse (KeyRoutes.Removed keyId "revoked") 200,
                 snd (ApiKeyStore.revoke keyId t0))) as E.
    { intros t0 x Hx. unfold KeyRoutes.delete. rewrite Hx, Hperm.
      unfold ApiKeyStore.revoke. destruct (Sql.revoke keyId t0). reflexivity. }
    assert (Sql.has_id keyId r = true) as Hself.
    { apply getById_Some in Hget as [_ <-]. apply String.eqb_refl. }
    assert (ApiKeyStore.getById keyId (snd (ApiKeyStore.revoke keyId t))
            = Some (set_revoked r)) as Hget'.
    { rewrite revoke_table, getById_updated by reflexivity.
      rewrite Hget. simpl. now rewrite Hself. }
    rewrite (E t r Hget). cbn [fst snd]. repeat split; auto.
    rewrite (E _ _ Hget'). f_equal.
    apply revoke_unchanged. apply revoke_marks.
Qed.

End RoutesEndToEnd.

(* ------------------------------------------------------------------ *)
(** ** The reverse proxy *)

Lemma get_set_same (k : string) (v : JS.value) (h : Proxy.Headers) :
  Proxy.get k (Proxy.set k v h) = Some v.
Proof.
  induction h as [|[k' v'] h IH]; simpl.
  - now rewrite String.eqb_refl.
  - destruct (k' =? k)%string eqn:E; simpl; now rewrite E.
Qed.

Lemma get_set_other (k k0 : string) (v : JS.value) (h : Proxy.Headers) :
  k0 <> k -> Proxy.get k0 (Proxy.set k v h) = Proxy.get k0 h.
Proof.
  intros Hne. induction h as [|[k' v'] h IH]; simpl.
  - assert ((k =? k0)%string = false) as -> by (apply String.eqb_neq; congruence).
    reflexivity.
  - destruct (k' =? k)%string eqn:E; simpl.
    + apply String.eqb_eq in E. subst k'.
      assert ((k =? k0)%string = false) as -> by (apply String.eqb_neq; congruence).
      reflexivity.
    + destruct (k' =? k0)%string; auto.
Qed.

Lemma get_remove_same (k : string) (h : Proxy.Headers) :
  Proxy.get k (Proxy.remove k h) = None.
Proof.
  unfold Proxy.remove. induction h as [|[k' v'] h IH]; simpl; auto.
  destruct (k' =? k)%string eqn:E; simpl; auto. now rewrite E.
Qed.

Lemma get_remove_other (k k0 : string) (h : Proxy.Headers) :
  k0 <> k -> Proxy.get k0 (Proxy.remove k h) = Proxy.get k0 h.
Proof.
  intros Hne. unfold Proxy.remove. induction h as [|[k' v'] h IH]; simpl; auto.
  destruct (k' =? k)%string eqn:E; simpl.
  - apply String.eqb_eq in E. subst k'.
    assert ((k =? k0)%string = false) as -> by (apply String.eqb_neq; congruence).
    exact IH.
  - destruct (k' =? k0)%string; auto.
Qed.

Lemma isAllowedOrigin_listed (origin : option string) :
  Proxy.isAllowedOrigin origin = true ->
  exists o, origin = Some o /\ In o Proxy.ALLOWED_ORIGINS.
Proof.
  unfold Proxy.isAllowedOrigin. destruct origin as [o|]; [|discriminate].
  intros E. apply andb_true_iff in E as [_ E].
  apply existsb_exists in E as [a [Ha E]]. apply String.eqb_eq in E. subst a. eauto.
Qed.

(** X17. CORS on proxied API responses: when the request's Origin is on the
    allow list the response carries that origin in
    [access-control-allow-origin] together with the three other CORS headers
    the proxy sets; otherwise [access-control-allow-origin] and
    [access-control-allow-credentials] are absent whatever the backend sent.
    Hence an allow-origin header, when present, names the request's own
    origin and that origin is one of the three allowed ones.  Every header
    outside these four is passed on as the backend sent it, and responses
    of the UI backend (on a different port) are passed on untouched. *)
Theorem cors_headers_follow_allow_list (p : Proxy.Ports) (url : string)
        (origin : option string) (upstream : Proxy.Headers) :
  (Proxy.isApiRoute url = true ->
   (Proxy.isAllowedOrigin origin = true ->
      Proxy.get "access-control-allow-origin" (Proxy.respond p url origin upstream)
      = Some (Proxy.origin_value origin)
      /\ Proxy.get "access-control-allow-credentials" (Proxy.respond p url origin upstream)
         = Some (JS.Str "true")
      /\ Proxy.get "access-control-allow-methods" (Proxy.respond p url origin upstream)
         = Some (JS.Str "GET, POST, PUT, DELETE, OPTIONS")
      /\ Proxy.get "access-control-allow-headers" (Proxy.respond p url origin upstream)
         = Some (JS.Str "Content-Type, Authorization"))
   /\ (Proxy.isAllowedOrigin origin = false ->
       Proxy.get "access-control-allow-origin" (Proxy.respond p url origin upstream) = None
       /\ Proxy.get "access-control-allow-credentials" (Proxy.respond p url origin upstream)
          = None)
   /\ (forall v,
         Proxy.get "access-control-allow-origin" (Proxy.respond p url origin upstream)
         = Some v ->
         exists o, origin = Some o /\ v = JS.Str o /\ In o Proxy.ALLOWED_ORIGINS)
   /\ (forall k,
         k <> "access-control-allow-origin"%string ->
         k <> "access-control-allow-credentials"%string ->
         k <> "access-control-allow-methods"%string ->
         k <> "access-control-allow-headers"%string ->
         Proxy.get k (Proxy.respond p url origin upstream) = Proxy.get k upstream))
  /\ (Proxy.isApiRoute url = false -> Proxy.UI_PORT p <> Proxy.API_PORT p ->
      Proxy.respond p url origin upstream = upstream).
Proof.
  unfold Proxy.respond, Proxy.request_target, Proxy.responseHeaders. split.
  - intros ->. rewrite Z.eqb_refl.
    assert (Proxy.isAllowedOrigin origin = true ->
            Proxy.get "access-control-allow-origin"
              (Proxy.set "access-control-allow-headers" (JS.Str "Content-Type, Authorization")
                 (Proxy.set "access-control-allow-methods"
                    (JS.Str "GET, POST, PUT, DELETE, OPTIONS")
                    (Proxy.set "access-control-allow-credentials" (JS.Str "true")
                       (Proxy.set "access-control-allow-origin"
                          (Proxy.origin_value origin) upstream))))
            = Some (Proxy.origin_value origin)) as Hacao.
    { intros _. rewrite !get_set_other by discriminate. apply get_set_same. }
    repeat apply conj.
    + intros Ha. rewrite Ha. split; [auto|].
      split; [|split].
      * rewrite !get_set_other by discriminate. apply get_set_same.
      * rewrite !get_set_other by discriminate. apply get_set_same.
      * apply get_set_same.
    + intros Ha. rewrite Ha. split.
      * rewrite get_remove_other by discriminate. apply get_remove_same.
      * apply get_remove_same.
    + intros v. destruct (Proxy.isAllowedOrigin origin) eqn:Ha.
      * rewrite (Hacao eq_refl). intros [= <-].
        destruct (isAllowedOrigin_listed origin Ha) as [o [-> Ho]].
        exists o. auto.
      * rewrite get_remove_other by discriminate. rewrite get_remove_same. discriminate.
    + intros k H1 H2 H3 H4. destruct (Proxy.isAllowedOrigin origin).
      * now rewrite !get_set_other by assumption.
      * now rewrite !get_remove_other by assumption.
  - intros -> Hports. apply Z.eqb_neq in Hports. now rewrite Hports.
Qed.

Lemma startsWith_cons (a b : ascii) (p s : string) :
  JS.startsWith (String b s) (String a p) = Ascii.eqb a b && JS.startsWith s p.
Proof.
  unfold JS.startsWith. cbn [String.prefix].
  destruct (ascii_dec a b) as [->|Hne].
  - now rewrite Ascii.eqb_refl.
  - apply Ascii.eqb_neq in Hne. now rewrite Hne.
Qed.

Lemma startsWith_nil (s : string) : JS.startsWith s "" = true.
Proof. destruct s; reflexivity. Qed.

Lemma string_eqb_cons (a b : ascii) (s s' : string) :
  (String a s =? String b s')%string = Ascii.eqb a b && (s =? s')%string.
Proof. reflexivity. Qed.

(** X18. Where the proxy draws the line between the backends: a path that
    begins with [/api] goes to the API only when it is exactly [/api] or
    continues with a slash, and one that begins with [/health] only when it
    is exactly [/health] or continues with a question mark, so [/api?x=1],
    [/apix] and [/healthz] are served by the UI; every path beginning with
    [/ws] goes to the API.  An upgrade reaches the API only on paths whose
    plain requests do too, and an upgrade on [/api/...] goes to the UI. *)
Theorem api_route_boundaries :
  (forall rest, Proxy.isApiRoute ("/api" ++ rest)%string = true
                <-> rest = ""%string \/ JS.startsWith rest "/" = true)
  /\ (forall rest, Proxy.isApiRoute ("/health" ++ rest)%string = true
                   <-> rest = ""%string \/ JS.startsWith rest "?" = true)
  /\ (forall rest, Proxy.isApiRoute ("/ws" ++ rest)%string = true)
  /\ (forall p url, Proxy.UI_PORT p <> Proxy.API_PORT p ->
        Proxy.upgrade_target p url = Proxy.API_PORT p ->
        Proxy.request_target p url = Proxy.API_PORT p)
  /\ (forall p rest, Proxy.upgrade_target p ("/api/" ++ rest)%string = Proxy.UI_PORT p).
Proof.
  repeat apply conj.
  - intros rest. unfold Proxy.isApiRoute. cbn [append].
    rewrite !startsWith_cons, !string_eqb_cons. simpl.
    destruct rest as [|c rest]; [vm_compute; tauto|].
    change (String c rest =? "")%string with false.
    rewrite ?orb_false_r, ?orb_false_l.
    split; [intros E; right; exact E|].
    intros [E|E]; [discriminate|exact E].
  - intros rest. unfold Proxy.isApiRoute. cbn [append].
    rewrite !startsWith_cons, !string_eqb_cons. simpl.
    destruct rest as [|c rest]; [vm_compute; tauto|].
    change (String c rest =? "")%string with false.
    rewrite ?orb_false_r, ?orb_false_l.
    split; [intros E; right; exact E|].
    intros [E|E]; [discriminate|exact E].
  - intros rest. unfold Proxy.isApiRoute. cbn [append].
    rewrite !startsWith_cons, !string_eqb_cons, startsWith_nil. reflexivity.
  - intros p url Hports. unfold Proxy.upgrade_target, Proxy.request_target, Proxy.isApiRoute.
    destruct (JS.startsWith url "/ws"); [|congruence].
    now rewrite orb_true_r.
  - intros p rest. unfold Proxy.upgrade_target. cbn [append].
    rewrite !startsWith_cons. reflexivity.
Qed.

(* ------------------------------------------------------------------ *)
(** ** Invariants of the tables the store builds *)

Section Reachable.
Context `{Host}.

Lemma step_created_rows (o : Op) (t : Table) :
  Forall created_row t -> Forall created_row (step o t).
Proof.
  intros Hi.
  assert (forall g i,
            (forall r, keyHash (g r) = keyHash r) ->
            (forall r, prefix (g r) = prefix r) ->
            (forall r, expiresAt (g r) = expiresAt r) ->
            Forall created_row (fst (Sql.update_where_id g i t))) as Hupd.
  { intros g i Hg Hp He. apply update_Forall; auto.
    intros r (k0 & H1 & H2 & H3 & H4). exists k0. rewrite Hg, Hp, He. auto. }
  destruct o; unfold step; auto.
  - destruct (ApiKeyStore.create f input t) as [[res t']|] eqn:E; auto.
    apply create_inserts in E as (-> & _ & Hrec & _).
    apply Forall_app. split; auto. constructor; [|constructor].
    exists (ApiKeyStore.generateKey f). rewrite Hrec. simpl.
    repeat split; [apply generateKey_tagged | apply expiresAt_or_null_nonzero].
  - destruct (validate_table k key t) as [->|[r ->]];
      [assumption | apply Hupd; reflexivity].
  - rewrite revoke_table. apply Hupd; reflexivity.
  - rewrite delete_table. unfold Sql.deleteKey. simpl.
    apply Forall_forall. intros r Hin. apply filter_In in Hin as [Hin _].
    rewrite Forall_forall in Hi. auto.
  - rewrite updateName_table. apply Hupd; reflexivity.
Qed.

(** X19. Every table the store builds from an empty database, by any
    sequence of its operations, has unique ids and unique digests, never
    holds [0] as an expiry, and holds in each row the digest and the display
    prefix of one and the same [sk-] key; with a collision-free digest, only
    [sk-] tokens can match a stored digest. *)
Theorem reachable_tables_invariant (t : Table) :
  reachable t ->
  well_formed t
  /\ Forall created_row t
  /\ (collision_free -> tagged_store t).
Proof.
  intros Hreach. split; [now apply reachable_well_formed|]. split.
  - destruct Hreach as [ops <-]. unfold run.
    assert (forall t0, Forall created_row t0 ->
              Forall created_row (fold_left (fun acc o => step o acc) ops t0)) as Hrun.
    { induction ops as [|o ops IH]; simpl; auto using step_created_rows. }
    apply Hrun. constructor.
  - intros Hcf. now apply reachable_tagged.
Qed.

Lemma step_keeps_identity (o : Op) (t : Table) (r : ApiKeyRecord) :
  keeps (id r) o -> In r t ->
  exists r', In r' (step o t) /\ id r' = id r /\ keyHash r' = keyHash r
             /\ (revoked r = true -> revoked r' = true).
Proof.
  intros Hk Hr.
  assert (forall g i,
            (forall x, id (g x) = id x) -> (forall x, keyHash (g x) = keyHash x) ->
            (forall x, revoked x = true -> revoked (g x) = true) ->
            exists r', In r' (fst (Sql.update_where_id g i t)) /\ id r' = id r
                       /\ keyHash r' = keyHash r /\ (revoked r = true -> revoked r' = true))
    as Hupd.
  { intros g i Hid Hh Hrev. exists (if Sql.has_id i r then g r else r).
    unfold Sql.update_where_id. simpl. split.
    - apply in_map_iff. eauto.
    - destruct (Sql.has_id i r); auto. }
  destruct o; unfold step; eauto.
  - destruct (ApiKeyStore.create f input t) as [[res t']|] eqn:E; eauto.
    apply create_inserts in E as (-> & _).
    exists r. split; auto. apply in_or_app. auto.
  - destruct (validate_table k key t) as [->|[x ->]];
      [eauto | apply Hupd; auto].
  - rewrite revoke_table. apply Hupd; auto.
  - rewrite delete_table. unfold Sql.deleteKey. simpl.
    exists r. split; auto. apply filter_In. split; auto.
    unfold Sql.has_id. simpl in Hk.
    apply negb_true_iff, String.eqb_neq. congruence.
  - rewrite updateName_table. apply Hupd; auto.
Qed.

Lemma run_keeps_identity (ops : list Op) (t : Table) (r : ApiKeyRecord) :
  In r t -> revoked r = true -> Forall (keeps (id r)) ops ->
  exists r', In r' (run ops t) /\ keyHash r' = keyHash r /\ revoked r' = true.
Proof.
  revert t r. induction ops as [|o ops IH]; simpl; intros t r Hr Hrv Hk.
  - eauto.
  - inversion Hk as [|? ? Ho Hops]; subst.
    destruct (step_keeps_identity o t r Ho Hr) as (r1 & Hin1 & Hid1 & Hh1 & Hrv1).
    destruct (IH (step o t) r1) as (r' & Hin' & Hh' & Hrv'); auto.
    + now rewrite Hid1.
    + exists r'. repeat split; auto. congruence.
Qed.

(** X20. Revocation cannot be undone through the store: once a key is
    revoked, then after any sequence of store operations that does not
    permanently delete its row (creates, validations, renames, further
    revocations, deletions of other keys) [validate] still returns absent
    for it. *)
Theorem revoked_key_stays_invalid (t : Table) (r : ApiKeyRecord) (key : string)
        (ops : list Op) (k : ApiKeyStore.Tick) :
  well_formed t -> In r t -> revoked r = true -> keyHash r = hashKey key ->
  Forall (keeps (id r)) ops ->
  fst (ApiKeyStore.validate k key (run ops t)) = None.
Proof.
  intros W Hr Hrv Hh Hk.
  destruct (run_keeps_identity ops t r Hr Hrv Hk) as (r' & Hin' & Hh' & Hrv').
  pose proof (run_well_formed ops t W) as W'.
  destruct (fst (ApiKeyStore.validate k key (run ops t))) as [x|] eqn:E; auto.
  apply validate_accepts_iff in E as (Hx & Hxh & Hxr & _); auto.
  assert (x = r') as -> by (apply (NoDup_map_inj keyHash (run ops t));
                            auto using wf_hashes; congruence).
  congruence.
Qed.

End Reachable.

(* ------------------------------------------------------------------ *)
(** ** The further theorems at the sample data *)

Lemma create_then_validate_witness :
  well_formed [Sample.row1]
  /\ fst (@ApiKeyStore.validate Sample.host Sample.tick "sk-11bb" Sample.table)
     = Some Sample.row2.
Proof.
  split; [schema_by_computation|].
  apply (@create_then_validate Sample.host Sample.fresh2
           (ApiKeyStore.mkInput "Reader" (Some [JS.Str "read"]) (Some 5000))
           [Sample.row1] Sample.table (ApiKeyStore.mkResult "sk-11bb" Sample.row2)
           Sample.tick).
  - schema_by_computation.
  - reflexivity.
  - unfold unexpired. simpl. lia.
Defined.

Lemma create_keeps_other_keys_witness :
  well_formed [Sample.row1]
  /\ ApiKeyStore.getById "id-1" Sample.table = ApiKeyStore.getById "id-1" [Sample.row1].
Proof.
  split; [schema_by_computation|].
  apply (@create_keeps_other_keys Sample.host Sample.fresh2
           (ApiKeyStore.mkInput "Reader" (Some [JS.Str "read"]) (Some 5000))
           [Sample.row1] Sample.table (ApiKeyStore.mkResult "sk-11bb" Sample.row2)).
  - schema_by_computation.
  - reflexivity.
  - discriminate.
Defined.

Lemma revoke_blocks_validate_witness :
  well_formed Sample.table
  /\ fst (@ApiKeyStore.validate Sample.host Sample.tick "sk-00aa"
            (snd (ApiKeyStore.revoke "id-1" Sample.table))) = None.
Proof.
  split; [schema_by_computation|].
  apply (@revoke_blocks_validate Sample.host Sample.table Sample.row1 "sk-00aa").
  - schema_by_computation.
  - simpl. auto.
  - reflexivity.
Defined.

Lemma delete_removes_key_witness :
  well_formed Sample.table
  /\ ApiKeyStore.getById "id-1" (snd (ApiKeyStore.delete "id-1" Sample.table)) = None.
Proof.
  split; [schema_by_computation|].
  apply (@delete_removes_key Sample.host Sample.table "id-1").
  schema_by_computation.
Defined.

Lemma validate_records_use_witness :
  well_formed Sample.table
  /\ ApiKeyStore.getById "id-1"
       (snd (@ApiKeyStore.validate Sample.host Sample.tick "sk-00aa" Sample.table))
     = Some (set_lastUsedAt 3001 Sample.row1).
Proof.
  split; [schema_by_computation|].
  apply (@validate_records_use Sample.host Sample.tick "sk-00aa" Sample.table Sample.row1).
  - schema_by_computation.
  - reflexivity.
  - reflexivity.
Defined.

Lemma issued_key_passes_gate_witness :
  well_formed []
  /\ nospace "00aa"
  /\ exists r,
       ApiKeyStore.getById "id-1" [Sample.row1_expiring] = Some r
       /\ @Sql.bind_expires_at Sample.engine_decimal (JS.Arr [JS.Num 9999])
          = Sql.Stored (expiresAt r)
       /\ Routes.get_one "id-1" [Sample.row1_expiring]
          = Routes.successResponse
              (Routes.KeyDetail
                 (Routes.mkSanitized "id-1" "CI Bot" "sk-00aa..." [JS.Str "*"] 1000 None
                                     (expiresAt r) false))
              200
       /\ (unexpired 3000 r ->
           @Middleware.createApiKeyAuth Sample.host_lenient Sample.tick
              (Some "Bearer sk-00aa"%string) [Sample.row1_expiring]
           = Middleware.mkRun (Middleware.Next (Some r))
               (snd (@ApiKeyStore.validate Sample.host_lenient Sample.tick "sk-00aa"
                       [Sample.row1_expiring]))
               ["sk-00aa"%string]).
Proof.
  assert (nospace "00aa") as Hhex by (unfold nospace; simpl; intuition discriminate).
  split; [apply empty_well_formed|]. split; [exact Hhex|].
  apply (@issued_key_passes_gate Sample.host_lenient Sample.engine_decimal Sample.fresh1
           500 (Routes.mkBody (JS.Str "CI Bot") JS.Undefined (JS.Arr [JS.Num 9999]))
           [] [Sample.row1_expiring]
           (Routes.mkCreated "sk-00aa" "id-1" "CI Bot" "sk-00aa..." [JS.Str "*"] 1000
                             (JS.Arr [JS.Num 9999]))
           Sample.tick).
  - apply empty_well_formed.
  - exact Hhex.
  - reflexivity.
Defined.

Lemma post_persists_only_on_201_witness :
  @Routes.post Sample.host Sample.engine Sample.fresh1 500 Sample.body_default []
  = Some (Routes.successResponse
            (Routes.Created
               (Routes.mkCreated "sk-00aa" "id-1" "CI Bot" "sk-00aa..." [JS.Str "*"] 1000
                                 JS.Null))
            201,
          [Sample.row1])
  /\ (201 <> 201 -> [Sample.row1] = []).
Proof.
  split; [reflexivity|].
  apply (proj1 (@post_persists_only_on_201 Sample.host Sample.engine Sample.fresh1 500
                  Sample.body_default [])
               (Routes.successResponse
                  (Routes.Created
                     (Routes.mkCreated "sk-00aa" "id-1" "CI Bot" "sk-00aa..." [JS.Str "*"]
                                       1000 JS.Null))
                  201)
               [Sample.row1] eq_refl).
Defined.

Lemma detail_agrees_with_list_witness :
  well_formed Sample.table
  /\ (Routes.get_one "id-9" Sample.table
      = Routes.errorResponse NOT_FOUND "API key not found" 404
      <-> ~ In "id-9"%string (map id Sample.table)).
Proof.
  split; [schema_by_computation|].
  apply (detail_agrees_with_list Sample.table).
  schema_by_computation.
Defined.

Lemma reachable_tables_invariant_witness :
  @reachable Sample.host Sample.table /\ well_formed Sample.table.
Proof.
  assert (@reachable Sample.host Sample.table) as Hreach.
  { exists [OpCreate Sample.fresh1 (ApiKeyStore.mkInput "CI Bot" None None);
            OpCreate Sample.fresh2
              (ApiKeyStore.mkInput "Reader" (Some [JS.Str "read"]) (Some 5000))].
    reflexivity. }
  split; [exact Hreach|].
  apply (@reachable_tables_invariant Sample.host Sample.table Hreach).
Defined.

Lemma revoked_key_stays_invalid_witness :
  well_formed Sample.table_revoked
  /\ fst (@ApiKeyStore.validate Sample.host Sample.tick "sk-00aa"
            (@run Sample.host
               [OpUpdateName "id-1" "renamed"; OpValidate Sample.tick "sk-00aa";
                OpDelete "id-2"]
               Sample.table_revoked)) = None.
Proof.
  assert (well_formed Sample.table_revoked) as W by schema_by_computation.
  split; [exact W|].
  apply (@revoked_key_stays_invalid Sample.host Sample.table_revoked
           (set_revoked Sample.row1) "sk-00aa").
  - exact W.
  - simpl. auto.
  - reflexivity.
  - reflexivity.
  - repeat constructor. simpl. discriminate.
Defined.
